(** * openupm: the build-package job (app/jobs/buildPackage.js)

    A shallow embedding of the job that lists a package's remote git tags,
    filters them, reconciles the release records and enqueues the missing
    build-release jobs, together with the properties of its three stages. *)

From Stdlib Require Import ZArith String Ascii.
From Stdlib Require Import Floats.PrimFloat Floats.FloatOps Floats.SpecFloat.
From Stdlib Require Import Numbers.Cyclic.Int63.Uint63.
From stdpp Require Import base tactics option list gmap strings.

#[local] Set Warnings "-clear-no-such-hyp".

Local Open Scope string_scope.
Local Open Scope nat_scope.
Local Open Scope list_scope.

(** ** Strings

    Tags, commits and versions are JavaScript strings; they are modelled as
    byte strings.  [startsWith] is [String.prototype.startsWith] and
    [endsWith] its mirror image. *)

Definition startsWith (s searchString : string) : bool :=
  String.prefix searchString s.

Definition endsWith (s searchString : string) : bool :=
  String.prefix (String.rev searchString) (String.rev s).

(** Case folding of the regular-expression flag [i], which on the letters
    used below only identifies [A]-[Z] with [a]-[z]. *)
Definition toLowerAscii (c : ascii) : ascii :=
  let n := nat_of_ascii c in
  if (65 <=? n) && (n <=? 90) then ascii_of_nat (n + 32) else c.

Fixpoint toLowerCase (s : string) : string :=
  match s with
  | EmptyString => EmptyString
  | String c rest => String (toLowerAscii c) (toLowerCase rest)
  end.

(** [upmRe = /(^upm\/|(_|-)upm$)/i] and its [test] method. *)
Definition upmRe_test (raw : string) : bool :=
  let s := toLowerCase raw in
  startsWith s "upm/" || endsWith s "_upm" || endsWith s "-upm".

(** A string without the separator [:] of the job ids. *)
Fixpoint noColon (s : string) : bool :=
  match s with
  | EmptyString => true
  | String c rest => negb (Ascii.eqb c ":") && noColon rest
  end.

(** A value used as a condition: [undefined] and the empty string are
    falsy, every other string is truthy. *)
Definition truthy (s : option string) : option string :=
  match s with
  | Some EmptyString => None
  | _ => s
  end.

(** ** Data model *)

Definition Version := string.

(** An element of the array returned by [gitListRemoteTags].  lodash's
    [difference] compares objects by reference, so every object carries its
    reference [ref]; two entries are the same object exactly when the
    records are equal. *)
Record RemoteTag : Type := mkRemoteTag {
  ref : nat;
  tag : string;
  commit : string
}.

Global Instance RemoteTag_eq_dec : EqDecision RemoteTag.
Proof. solve_decision. Defined.

(** What a synchronous piece of code does: it returns, or it throws. *)
Inductive Exn : Type :=
| SyntaxError (pattern : string).

Inductive Outcome (A : Type) : Type :=
| Returned (a : A)
| Thrown (e : Exn).
Arguments Returned {A} a.
Arguments Thrown {A} e.

Definition obind {A B} (o : Outcome A) (f : A → Outcome B) : Outcome B :=
  match o with
  | Returned a => f a
  | Thrown e => Thrown e
  end.

(** ** Collaborators that are required but not part of this module *)

(** [../utils/semver], [../utils/package] and the built-in [RegExp]. *)
Class Utils : Type := {
  (** [getVersionFromTag(tag)]: the parsed version, or [null]. *)
  getVersionFromTag : string → option Version;
  (** [new RegExp(pattern, flags)]: the [test] method of the compiled
      expression, or nothing when the constructor throws a SyntaxError. *)
  RegExp : string → string → option (string → bool);
  (** [cleanRepoUrl(url, format)]. *)
  cleanRepoUrl : string → string → string
}.

Definition newRegExp `{Utils} (pattern flags : string) : Outcome (string → bool) :=
  match RegExp pattern flags with
  | Some test => Returned test
  | None => Thrown (SyntaxError pattern)
  end.

(** ** filterRemoteTags *)

Section TagFilter.
Context `{Utils}.

(** The [for (const element of tags)] loop of lines 65-71, with the two
    objects it mutates, [versionSet] and [validTags], passed along. *)
Fixpoint removeDuplications (tags : list RemoteTag)
    (versionSet : gset (option Version)) (validTags : list RemoteTag)
    : list RemoteTag :=
  match tags with
  | [] => validTags
  | element :: rest =>
      let version := getVersionFromTag (tag element) in
      if decide (version ∈ versionSet)
      then removeDuplications rest versionSet validTags
      else removeDuplications rest ({[version]} ∪ versionSet)
                              (validTags ++ [element])
  end.

(** The three filters of lines 50-59: the tags that survive the prefix,
    the semver and the ignore filter, in the order of [remoteTags]. *)
Definition filteredTags (remoteTags : list RemoteTag)
    (gitTagIgnore gitTagPrefix : option string)
    : Outcome (list RemoteTag) :=
  let tags := remoteTags in
  let tags :=
    match truthy gitTagPrefix with
    | Some prefix => filter (λ x, startsWith (tag x) prefix) tags
    | None => tags
    end in
  let tags := filter (λ x, getVersionFromTag (tag x) ≠ None) tags in
  match truthy gitTagIgnore with
  | Some pattern =>
      obind (newRegExp pattern "i") (λ ignoreRe,
        Returned (filter (λ x, negb (ignoreRe (tag x))) tags))
  | None => Returned tags
  end.

Definition filterRemoteTags (remoteTags : list RemoteTag)
    (gitTagIgnore gitTagPrefix : option string)
    : Outcome (list RemoteTag) :=
  obind (filteredTags remoteTags gitTagIgnore gitTagPrefix) (λ tags,
    let validTags := filter (λ x, upmRe_test (tag x)) tags in
    let versionSet : gset (option Version) :=
      list_to_set ((λ x, getVersionFromTag (tag x)) <$> validTags) in
    Returned (removeDuplications tags versionSet validTags)).
End TagFilter.


(** ** Numbers and dates

    A JavaScript number is a binary64 float.  The counter [i] and the
    seconds of a date are whole numbers far below 2^53 (an array has fewer
    than 2^32 elements), which [numberOfZ] represents exactly. *)

Definition numberOfZ (z : Z) : float := PrimFloat.of_uint63 (Uint63.of_Z z).

Definition numberOfNat (i : nat) : float := numberOfZ (Z.of_nat i).

(** [ToIntegerOrInfinity] of a finite number: truncation towards zero.
    NaN and the infinities, which make [MakeTime] answer NaN, give
    nothing. *)
Definition toIntegerOrInfinity (x : float) : option Z :=
  match Prim2SF x with
  | S754_zero _ => Some 0%Z
  | S754_finite negative m e =>
      let magnitude :=
        if (0 <=? e)%Z then (Z.pos m * 2 ^ e)%Z
        else (Z.pos m / 2 ^ (- e))%Z in
      Some (if negative then (- magnitude)%Z else magnitude)
  | _ => None
  end.

(** The [[DateValue]] of a Date: a time value, in milliseconds since the
    epoch, or NaN, an Invalid Date. *)
Inductive DateValue : Type :=
| TimeValue (t : Z)
| InvalidDate.

Global Instance DateValue_eq_dec : EqDecision DateValue.
Proof. solve_decision. Defined.

(** The local time zone adjustment of the host, in milliseconds:
    [LocalTZA t true] for a time value [t], [LocalTZA t false] for a
    local time [t]. *)
Class TimeZone : Type := {
  LocalTZA : Z → bool → Z
}.

Definition msPerSecond : Z := 1000.
Definition msPerMinute : Z := 60000.
Definition msPerHour : Z := 3600000.
Definition msPerDay : Z := 86400000.

Definition Day (t : Z) : Z := (t / msPerDay)%Z.
Definition HourFromTime (t : Z) : Z := ((t / msPerHour) mod 24)%Z.
Definition MinFromTime (t : Z) : Z := ((t / msPerMinute) mod 60)%Z.
Definition SecFromTime (t : Z) : Z := ((t / msPerSecond) mod 60)%Z.
Definition msFromTime (t : Z) : Z := (t mod msPerSecond)%Z.

(** [MakeTime] and [MakeDate] on whole numbers.  ECMAScript computes them
    in binary64; the results agree for dates within 3 * 10^14 ms of the
    epoch, some nine thousand years, whenever the outcome is in the range
    that [TimeClip] lets through. *)
Definition MakeTime (hour min sec ms : Z) : Z :=
  (hour * msPerHour + min * msPerMinute + sec * msPerSecond + ms)%Z.

Definition MakeDate (day time : Z) : Z := (day * msPerDay + time)%Z.

Definition TimeClip (time : Z) : DateValue :=
  if (8640000000000000 <? Z.abs time)%Z then InvalidDate
  else TimeValue time.

Section Dates.
Context `{TimeZone}.

Definition LocalTime (t : Z) : Z := (t + LocalTZA t true)%Z.

Definition UTC (t : Z) : Z := (t - LocalTZA t false)%Z.

(** [Date.prototype.getSeconds] of a date with the time value [tv]. *)
Definition getSeconds (tv : Z) : Z := SecFromTime (LocalTime tv).

(** [Date.prototype.setSeconds(sec)] on a date with the time value [tv]:
    the date value that the date holds afterwards. *)
Definition setSeconds (tv : Z) (sec : float) : DateValue :=
  let t := LocalTime tv in
  match toIntegerOrInfinity sec with
  | None => InvalidDate
  | Some s =>
      let date :=
        MakeDate (Day t)
          (MakeTime (HourFromTime t) (MinFromTime t) s (msFromTime t)) in
      TimeClip (UTC date)
  end.
End Dates.

(** ** Records and collaborators of the reconciliation and the scheduler *)

(** [../models/common]: the release states and reasons.  A release stores a
    reason code; [ReleaseReason.get] turns it into an enum item, or
    [undefined]; [RetryableReleaseReason] is an array of items. *)
Class Common : Type := {
  ReleaseState : Type;
  ReleaseState_eq_dec :: EqDecision ReleaseState;
  Succeeded : ReleaseState;
  Failed : ReleaseState;
  ReasonCode : Type;
  ReleaseReasonItem : Type;
  ReleaseReasonItem_eq_dec :: EqDecision ReleaseReasonItem;
  ReleaseReason_get : ReasonCode → option ReleaseReasonItem;
  RetryableReleaseReason : list ReleaseReasonItem
}.

(** [config.jobs.buildRelease]: the job-id prefix and the delay in seconds
    between two jobs of one batch, a JavaScript number. *)
Class Config : Type := {
  jobs_buildRelease_key : string;
  jobs_buildRelease_delay : float
}.

(** [../queues/core]: the job objects of the queue; the code only tests
    them for being there. *)
Class Queue : Type := {
  Job : Type
}.

(** What [loadPackage] resolves to. *)
Module Package.
Record t : Type := mk {
  name : string;
  repoUrl : string;
  gitTagIgnore : option string;
  gitTagPrefix : option string
}.
End Package.

(** A release as the store returns it. *)
Module Release.
Section Fields.
Context `{Common}.
Record t : Type := mk {
  packageName : string;
  version : Version;
  commit : string;
  tag : string;
  state : ReleaseState;
  reason : ReasonCode
}.
End Fields.
End Release.

(** The object literal of lines 101-106 handed to [Release.save]. *)
Module NewRecord.
Record t : Type := mk {
  packageName : string;
  version : option Version;
  commit : string;
  tag : string
}.
End NewRecord.

(** The [delay] property given to [addJob]: the number [0], or a [Date]. *)
Inductive Delay : Type :=
| DelayNumber (n : Z)
| DelayDate (dt : DateValue).

Global Instance Delay_eq_dec : EqDecision Delay.
Proof. solve_decision. Defined.

Section Effects.
Context `{Common, Queue}.

(** The awaited calls to collaborators, and [new Date()].  [addJob] also
    gets the constant [config.jobs.buildRelease] as its [jobConfig], which
    is left out.  Writing to the log is not among the calls: it answers
    nothing and the job does not depend on it. *)
Inductive Call : Type :=
| LoadPackage (name : string)
| GitListRemoteTags (url : string)
| SetInvalidTags (name : string) (invalidTags : list RemoteTag)
| FetchAll (packageName : string)
| RemoveRelease (packageName : string) (version : Version)
| FetchOne (packageName : string) (version : option Version)
| Save (record : NewRecord.t)
| GetJob (jobId : string)
| NewDate
| AddJob (jobId : string) (delay : Delay).

Definition Resp (c : Call) : Type :=
  match c with
  | LoadPackage _ => Package.t
  | GitListRemoteTags _ => list RemoteTag
  | SetInvalidTags _ _ => unit
  | FetchAll _ => list Release.t
  | RemoveRelease _ _ => unit
  | FetchOne _ _ => option Release.t
  | Save _ => Release.t
  | GetJob _ => option Job
  | NewDate => Z
  | AddJob _ _ => Job
  end.

(** An asynchronous function: it returns, throws, or awaits a call and
    goes on with the answer. *)
Inductive Prog (A : Type) : Type :=
| Ret (a : A)
| Throw (e : Exn)
| Do (c : Call) (k : Resp c → Prog A).
Arguments Ret {A} a.
Arguments Throw {A} e.
Arguments Do {A} c k.

Fixpoint bind {A B} (p : Prog A) (f : A → Prog B) : Prog B :=
  match p with
  | Ret a => f a
  | Throw e => Throw e
  | Do c k => Do c (λ r, bind (k r) f)
  end.

Definition call (c : Call) : Prog (Resp c) := Do c Ret.

Definition lift {A} (o : Outcome A) : Prog A :=
  match o with
  | Returned a => Ret a
  | Thrown e => Throw e
  end.

(** One call together with its answer. *)
Inductive Event : Type :=
| Ev (c : Call) (r : Resp c).

(** [runs p tr o]: [p] can make the calls of [tr], get the answers of
    [tr], and end in [o].  Every call is answered: a collaborator that
    rejects aborts the job at that call, and such runs are not traces
    here. *)
Fixpoint runs {A} (p : Prog A) (tr : list Event) (o : Outcome A) : Prop :=
  match p with
  | Ret a => tr = [] ∧ o = Returned a
  | Throw e => tr = [] ∧ o = Thrown e
  | Do c k => ∃ r tr', tr = Ev c r :: tr' ∧ runs (k r) tr' o
  end.

(** Running against collaborators given as a state machine. *)
Fixpoint exec {A S} (handler : ∀ c, S → Resp c * S) (p : Prog A) (s : S)
    : list Event * Outcome A * S :=
  match p with
  | Ret a => ([], Returned a, s)
  | Throw e => ([], Thrown e, s)
  | Do c k =>
      let '(r, s') := handler c s in
      let '(tr, o, s'') := exec handler (k r) s' in
      (Ev c r :: tr, o, s'')
  end.
End Effects.

Arguments Ret {_ _ _} a.
Arguments Throw {_ _ _} e.
Arguments Do {_ _ _} c k.

Global Instance Prog_mbind `{Common, Queue} : MBind Prog :=
  λ A B f p, bind p f.

(** ** The job *)

Section BuildPackage.
Context `{Utils, Common, Queue, Config, TimeZone}.

(** lodash's [difference(array, values)]: the elements of [array] that
    are not in [values], in the order of [array]. *)
Definition difference (array values : list RemoteTag) : list RemoteTag :=
  list_difference array values.

(** [remoteTags.find(x => x.tag == rel.tag && x.commit == rel.commit)]. *)
Definition findTag (remoteTags : list RemoteTag) (rel : Release.t)
    : option RemoteTag :=
  List.find (λ x, bool_decide (tag x = Release.tag rel)
                  && bool_decide (commit x = Release.commit rel))
            remoteTags.

(** The first loop of [updateReleaseRecords] (lines 79-94). *)
Fixpoint removeFailedReleases (packageName : string)
    (remoteTags : list RemoteTag) (releases : list Release.t)
    : Prog unit :=
  match releases with
  | [] => Ret tt
  | rel :: rest =>
      if bool_decide (Release.state rel = Failed) then
        match findTag remoteTags rel with
        | None =>
            _ ← call (RemoveRelease packageName (Release.version rel));
            removeFailedReleases packageName remoteTags rest
        | Some _ => removeFailedReleases packageName remoteTags rest
        end
      else removeFailedReleases packageName remoteTags rest
  end.

(** The second loop (lines 96-110); [releases] is the array that is
    pushed to. *)
Fixpoint convertTags (packageName : string) (remoteTags : list RemoteTag)
    (releases : list Release.t) : Prog (list Release.t) :=
  match remoteTags with
  | [] => Ret releases
  | remoteTag :: rest =>
      let version := getVersionFromTag (tag remoteTag) in
      release ← call (FetchOne packageName version);
      release ← match release with
                | Some release => Ret release
                | None =>
                    let record := {|
                      NewRecord.packageName := packageName;
                      NewRecord.version := version;
                      NewRecord.commit := commit remoteTag;
                      NewRecord.tag := tag remoteTag
                    |} in
                    call (Save record)
                end;
      convertTags packageName rest (releases ++ [release])
  end.

Definition updateReleaseRecords (packageName : string)
    (remoteTags : list RemoteTag) : Prog (list Release.t) :=
  releases ← call (FetchAll packageName);
  _ ← removeFailedReleases packageName remoteTags releases;
  convertTags packageName remoteTags [].

(** [config.jobs.buildRelease.key + ":" + rel.packageName + ":" +
    rel.version]. *)
Definition jobIdOf (packageName : string) (version : Version) : string :=
  (((jobs_buildRelease_key +:+ ":") +:+ packageName) +:+ ":") +:+ version.

(** [RetryableReleaseReason.includes(reason)]. *)
Definition includes (reason : option ReleaseReasonItem) : bool :=
  match reason with
  | Some item => bool_decide (item ∈ RetryableReleaseReason)
  | None => false
  end.

(** The condition of lines 136-141, [job] being the answer of
    [queue.getJob]. *)
Definition skipRelease (job : option Job) (rel : Release.t) : bool :=
  let reason := ReleaseReason_get (Release.reason rel) in
  bool_decide (is_Some job)
  || bool_decide (Release.state rel = Succeeded)
  || (bool_decide (Release.state rel = Failed) && negb (includes reason)).

(** Lines 144, 145 and 149: the date [dt] read from the clock, moved by
    [dt.setSeconds(dt.getSeconds() + config.jobs.buildRelease.delay * i)],
    is the delay, unless [i] is 0. *)
Definition jobDelay (i : nat) (dt : Z) : Delay :=
  let dt :=
    setSeconds dt
      (PrimFloat.add (numberOfZ (getSeconds dt))
         (PrimFloat.mul jobs_buildRelease_delay (numberOfNat i))) in
  if decide (i = 0) then DelayNumber 0 else DelayDate dt.

(** The loop of [addReleaseJobs] (lines 118-152) from the counter [i]. *)
Fixpoint addReleaseJobsFrom (releases : list Release.t) (i : nat)
    : Prog unit :=
  match releases with
  | [] => Ret tt
  | rel :: rest =>
      let jobId := jobIdOf (Release.packageName rel) (Release.version rel) in
      job ← call (GetJob jobId);
      if skipRelease job rel then addReleaseJobsFrom rest i
      else
        dt ← call NewDate;
        _ ← call (AddJob jobId (jobDelay i dt));
        addReleaseJobsFrom rest (i + 1)
  end.

Definition addReleaseJobs (releases : list Release.t) : Prog unit :=
  addReleaseJobsFrom releases 0.

Definition buildPackage (name : string) : Prog unit :=
  pkg ← call (LoadPackage name);
  remoteTags ← call (GitListRemoteTags
                       (cleanRepoUrl (Package.repoUrl pkg) "git"));
  validTags ← lift (filterRemoteTags remoteTags (Package.gitTagIgnore pkg)
                                     (Package.gitTagPrefix pkg));
  let validTags := reverse validTags in
  let invalidTags := difference remoteTags validTags in
  _ ← call (SetInvalidTags name invalidTags);
  match validTags with
  | [] => Ret tt
  | _ :: _ =>
      releases ← updateReleaseRecords (Package.name pkg) validTags;
      addReleaseJobs releases
  end.
End BuildPackage.
(** Modelled from the spec: [getVersionFromTag] lives in [../utils/semver],
    which is not among the sources.  The spec fixes its interface (a raw tag
    gives a version or null) and the values in its scenarios: [1.0.2] and
    [v1.0.2] both give [1.0.2], [releases/0.8.1-preview] gives
    [0.8.1-preview], [upm/1.0.2] gives [1.0.2], and [patch] gives null.
    This stand-in returns the part of the tag from its first decimal digit
    on, which agrees with those values.  It only instantiates the parser in
    worked examples; no general statement depends on it. *)
Fixpoint sampleVersionFromTag (raw : string) : option Version :=
  match raw with
  | EmptyString => None
  | String c rest =>
      match Ascii.is_nat c with
      | Some _ => Some raw
      | None => sampleVersionFromTag rest
      end
  end.

(** A stand-in for the regular-expression engine in worked examples: every
    pattern compiles, and matches the tags that contain it literally,
    case-insensitively. *)
Fixpoint sampleContains (pattern s : string) : bool :=
  startsWith s pattern ||
  match s with
  | EmptyString => false
  | String _ rest => sampleContains pattern rest
  end.

Definition sampleUtils : Utils := {|
  getVersionFromTag := sampleVersionFromTag;
  RegExp := λ pattern _,
    Some (λ s, sampleContains (toLowerCase pattern) (toLowerCase s));
  cleanRepoUrl := λ url _, url
|}.

(** ** Sample collaborators

    An in-memory release store, queue and clock, to run the job on concrete
    inputs.  They stand for the collaborators in worked examples only. *)

Inductive SampleState : Type :=
| StPending
| StBuilding
| StSucceeded
| StFailed.

Global Instance SampleState_eq_dec : EqDecision SampleState.
Proof. solve_decision. Defined.

Definition sampleCommon : Common := {|
  ReleaseState := SampleState;
  Succeeded := StSucceeded;
  Failed := StFailed;
  ReasonCode := Z;
  ReleaseReasonItem := Z;
  ReleaseReason_get := λ code,
    if bool_decide (code ∈ [0; 400; 408; 500]%Z) then Some code else None;
  RetryableReleaseReason := [408; 500]%Z
|}.

Definition sampleQueue : Queue := {| Job := string |}.

Definition sampleConfig : Config := {|
  jobs_buildRelease_key := "build-rel";
  jobs_buildRelease_delay := 5%float
|}.

(** A host in universal time. *)
Definition utcZone : TimeZone := {| LocalTZA := λ _ _, 0%Z |}.


Record World : Type := mkWorld {
  packages : list Package.t;
  remotes : list RemoteTag;
  extras : list (string * list RemoteTag);
  releases : list (@Release.t sampleCommon);
  jobs : list (string * Delay);
  clock : Z
}.

Definition samePackageVersion (packageName : string) (version : Version)
    (rel : @Release.t sampleCommon) : bool :=
  bool_decide (Release.packageName rel = packageName)
  && bool_decide (Release.version rel = version).

Definition sampleHandler (c : Call) (w : World)
    : @Resp sampleCommon sampleQueue c * World :=
  match c return @Resp sampleCommon sampleQueue c * World with
  | LoadPackage name =>
      (default (Package.mk name "" None None)
         (List.find (λ p, bool_decide (Package.name p = name)) (packages w)),
       w)
  | GitListRemoteTags _ => (remotes w, w)
  | SetInvalidTags name invalidTags =>
      (tt, mkWorld (packages w) (remotes w) ((name, invalidTags) :: extras w)
             (releases w) (jobs w) (clock w))
  | FetchAll packageName =>
      (List.filter
         (λ rel, bool_decide (Release.packageName rel = packageName))
         (releases w),
       w)
  | RemoveRelease packageName version =>
      (tt, mkWorld (packages w) (remotes w) (extras w)
             (List.filter
                (λ rel, negb (samePackageVersion packageName version rel))
                (releases w))
             (jobs w) (clock w))
  | FetchOne packageName version =>
      (match version with
       | Some version =>
           List.find (samePackageVersion packageName version) (releases w)
       | None => None
       end,
       w)
  | Save record =>
      let rel := @Release.mk sampleCommon (NewRecord.packageName record)
                   (default "" (NewRecord.version record))
                   (NewRecord.commit record) (NewRecord.tag record) StPending 0%Z in
      (rel, mkWorld (packages w) (remotes w) (extras w)
              (releases w ++ [rel]) (jobs w) (clock w))
  | GetJob jobId =>
      (fst <$> List.find (λ j, bool_decide (fst j = jobId)) (jobs w), w)
  | NewDate =>
      (clock w, mkWorld (packages w) (remotes w) (extras w) (releases w)
                  (jobs w) (clock w + 1)%Z)
  | AddJob jobId delay =>
      (jobId, mkWorld (packages w) (remotes w) (extras w) (releases w)
                (jobs w ++ [(jobId, delay)]) (clock w))
  end.

(** ** What a trace says *)

Section Traces.
Context `{Common, Queue}.

(** The job id of an [addJob] call. *)
Definition addedJobId (e : Event) : option string :=
  match e with
  | Ev (AddJob jobId _) _ => Some jobId
  | _ => None
  end.



(** The job id of a [getJob] call, and whether a job was found. *)
Definition jobLookup (e : Event) : option (string * bool) :=
  match e with
  | Ev c r =>
      match c return Resp c → option (string * bool) with
      | GetJob jobId => λ job, Some (jobId, bool_decide (is_Some job))
      | _ => λ _, None
      end r
  end.

(** The package that [loadPackage] gave, and the tags that
    [gitListRemoteTags] gave. *)
Definition loadedPackage (e : Event) : option Package.t :=
  match e with
  | Ev c r =>
      match c return Resp c → option Package.t with
      | LoadPackage _ => λ pkg, Some pkg
      | _ => λ _, None
      end r
  end.

Definition listedTags (e : Event) : option (list RemoteTag) :=
  match e with
  | Ev c r =>
      match c return Resp c → option (list RemoteTag) with
      | GitListRemoteTags _ => λ remoteTags, Some remoteTags
      | _ => λ _, None
      end r
  end.

(** A call of the reconciliation's second loop. *)
Definition isStoreLookupOrSave (e : Event) : bool :=
  match e with
  | Ev (FetchOne _ _) _ | Ev (Save _) _ => true
  | _ => false
  end.

(** The version that [Release.fetchOne] was asked for. *)
Definition lookedUpVersion (e : Event) : option (option Version) :=
  match e with
  | Ev (FetchOne _ version) _ => Some version
  | _ => None
  end.

(** A call to the release store or to the removal routine. *)
Definition isStoreCall (e : Event) : bool :=
  match e with
  | Ev (FetchAll _) _ | Ev (RemoveRelease _ _) _
  | Ev (FetchOne _ _) _ | Ev (Save _) _ => true
  | _ => false
  end.

(** A call to the queue, or a reading of the clock. *)
Definition isQueueCall (e : Event) : bool :=
  match e with
  | Ev (GetJob _) _ | Ev NewDate _ | Ev (AddJob _ _) _ => true
  | _ => false
  end.

(** The queue's lookup reflects the jobs added so far: once [addJob] was
    called for an id, [getJob] finds a job for it.  [added] holds the ids
    added before [tr]. *)
Fixpoint lookupReflectsAdds (added : gset string) (tr : list Event) : bool :=
  match tr with
  | [] => true
  | e :: tr' =>
      match jobLookup e, addedJobId e with
      | Some (jobId, found), _ =>
          (if decide (jobId ∈ added) then found else true)
          && lookupReflectsAdds added tr'
      | None, Some jobId => lookupReflectsAdds ({[jobId]} ∪ added) tr'
      | None, None => lookupReflectsAdds added tr'
      end
  end.
End Traces.

(** ** The spec's wording of the three stages *)

Section Wording.
Context `{Utils, Common, Queue, Config, TimeZone}.

Definition versionOf (x : RemoteTag) : option Version :=
  getVersionFromTag (tag x).

Definition isUpm (x : RemoteTag) : Prop := upmRe_test (tag x).

(** What the three filters of lines 50-59 let through. *)
Definition passesPrefix (prefix : option string) (x : RemoteTag) : Prop :=
  ∀ p, truthy prefix = Some p → startsWith (tag x) p.

Definition passesIgnore (ignore : option string) (x : RemoteTag) : Prop :=
  ∀ pattern test,
    truthy ignore = Some pattern → RegExp pattern "i" = Some test →
    test (tag x) = false.

(** Step 5 of the tag filter: walk the non-UPM tags, keep the first tag
    of every version not yet seen. *)
Fixpoint firstOfEachVersion (rest : list RemoteTag)
    (seen : gset (option Version)) : list RemoteTag :=
  match rest with
  | [] => []
  | x :: rest =>
      if decide (versionOf x ∈ seen) then firstOfEachVersion rest seen
      else x :: firstOfEachVersion rest ({[versionOf x]} ∪ seen)
  end.

(** Steps 4 and 5: the UPM-tagged tags in filtered order, then the
    deduplicated rest.  This is the construction order of the valid
    list. *)
Definition constructionOrder (tags : list RemoteTag) : list RemoteTag :=
  let upm := filter isUpm tags in
  let rest := filter (λ x, ¬ isUpm x) tags in
  upm ++ firstOfEachVersion rest (list_to_set (versionOf <$> upm)).

(** A valid tag with the tag and the commit of a release. *)
Definition matchesRelease (rel : Release.t) (x : RemoteTag) : Prop :=
  tag x = Release.tag rel ∧ commit x = Release.commit rel.

(** A failed release whose (tag, commit) is not among the valid tags. *)
Definition isStale (validTags : list RemoteTag) (rel : Release.t) : Prop :=
  Release.state rel = Failed ∧ ¬ Exists (matchesRelease rel) validTags.

Global Instance isStale_dec validTags rel : Decision (isStale validTags rel).
Proof. unfold isStale, matchesRelease. apply _. Defined.

(** The skip rule of the scheduler, step 3. *)
Definition shouldSkip (job : option Job) (rel : Release.t) : Prop :=
  is_Some job
  ∨ Release.state rel = Succeeded
  ∨ (Release.state rel = Failed
     ∧ ¬ ∃ item, ReleaseReason_get (Release.reason rel) = Some item
                 ∧ item ∈ RetryableReleaseReason).

Definition jobIdOfRelease (rel : Release.t) : string :=
  jobIdOf (Release.packageName rel) (Release.version rel).

(** The delay of step 4 for the counter value [i] at time [now], the
    offset being made the way the job makes it, by setting the seconds of
    the local time. *)
Definition staggerDelay (i : nat) (now : Z) : Delay :=
  if decide (i = 0) then DelayNumber 0
  else DelayDate
         (setSeconds now
            (PrimFloat.add (numberOfZ (getSeconds now))
               (PrimFloat.mul jobs_buildRelease_delay (numberOfNat i)))).





(** The scheduler, steps 1 to 5: the calls it makes for [releases] from
    the counter value [i]. *)
Inductive scheduled : nat → list Release.t → list Event → Prop :=
| scheduled_nil i : scheduled i [] []
| scheduled_skip i rel rest job tr :
    shouldSkip job rel →
    scheduled i rest tr →
    scheduled i (rel :: rest) (Ev (GetJob (jobIdOfRelease rel)) job :: tr)
| scheduled_enqueue i rel rest job now added tr :
    ¬ shouldSkip job rel →
    scheduled (S i) rest tr →
    scheduled i (rel :: rest)
      (Ev (GetJob (jobIdOfRelease rel)) job
       :: Ev NewDate now
       :: Ev (AddJob (jobIdOfRelease rel) (staggerDelay i now)) added
       :: tr).

(** Materialization of one valid tag: the lookup alone when a release is
    found, which is then the result; the lookup and the save of a new
    record otherwise. *)
Definition materializes (packageName : string) (x : RemoteTag)
    (calls : list Event) (rel : Release.t) : Prop :=
  calls = [Ev (FetchOne packageName (versionOf x)) (Some rel)]
  ∨ calls = [Ev (FetchOne packageName (versionOf x)) None;
             Ev (Save {| NewRecord.packageName := packageName;
                         NewRecord.version := versionOf x;
                         NewRecord.commit := commit x;
                         NewRecord.tag := tag x |}) rel].
End Wording.

(** ** Worked inputs *)

Definition c10 := mkRemoteTag 0 "1.0.2" "c10".
Definition c9 := mkRemoteTag 1 "patch" "c9".
Definition c8 := mkRemoteTag 2 "1.0.0" "c8".
Definition c6 := mkRemoteTag 3 "0.8.0-preview" "c6".
Definition c5 := mkRemoteTag 4 "releases/0.8.1-preview" "c5".

Definition sampleTags : list RemoteTag := [c10; c9; c8; c6; c5].

(** Two UPM tags of the version 1.0.2, a plain tag of that version, and
    two plain tags of the version 1.0.0. *)
Definition u1 := mkRemoteTag 0 "upm/1.0.2" "a1".
Definition u2 := mkRemoteTag 1 "1.0.2" "a2".
Definition u3 := mkRemoteTag 2 "UPM/v1.0.2" "a3".
Definition u4 := mkRemoteTag 3 "1.0.0" "a4".
Definition u5 := mkRemoteTag 4 "v1.0.0" "a5".

Definition upmTags : list RemoteTag := [u1; u2; u3; u4; u5].

Definition sampleRelease (version commit tag : string) (state : SampleState)
    (reason : Z) : @Release.t sampleCommon :=
  @Release.mk sampleCommon "com.sample" version commit tag state reason.

(** A package with the tags above and three persisted releases: 1.0.0
    failed at a commit that the tag has left, 0.8.0-preview failed at the
    commit of its tag for a reason that is not retried, and 0.1.0
    succeeded. *)
Definition sampleWorld : World := {|
  packages := [Package.mk "com.sample" "https://example.org/sample" None None];
  remotes := sampleTags;
  extras := [];
  releases := [sampleRelease "1.0.0" "c7" "1.0.0" StFailed 400;
               sampleRelease "0.8.0-preview" "c6" "0.8.0-preview" StFailed 400;
               sampleRelease "0.1.0" "c1" "0.1.0" StSucceeded 0];
  jobs := [];
  clock := 1000000
|}.

(** A package whose only remote tag is no version. *)
Definition emptyPackage : Package.t :=
  Package.mk "com.empty" "https://example.org/empty" None None.

Definition emptyWorld : World := {|
  packages := [emptyPackage];
  remotes := [c9];
  extras := [];
  releases := [];
  jobs := [];
  clock := 1000000
|}.

(** Releases in which the version 1.0.2 occurs twice. *)
Definition duplicateReleases : list (@Release.t sampleCommon) :=
  [sampleRelease "1.0.2" "c10" "upm/1.0.2" StPending 0;
   sampleRelease "1.0.0" "c8" "1.0.0" StFailed 408;
   sampleRelease "1.0.2" "c9" "upm/v1.0.2" StPending 0].

Definition sampleBuild :=
  @exec sampleCommon sampleQueue _ _ sampleHandler
    (@buildPackage sampleUtils sampleCommon sampleQueue sampleConfig utcZone
       "com.sample") sampleWorld.

Definition emptyBuild :=
  @exec sampleCommon sampleQueue _ _ sampleHandler
    (@buildPackage sampleUtils sampleCommon sampleQueue sampleConfig utcZone
       "com.empty") emptyWorld.

Definition sampleUpdate :=
  @exec sampleCommon sampleQueue _ _ sampleHandler
    (@updateReleaseRecords sampleUtils sampleCommon sampleQueue
       "com.sample" [c5; c6; c8; c10]) sampleWorld.

Definition sampleSchedule :=
  @exec sampleCommon sampleQueue _ _ sampleHandler
    (@addReleaseJobs sampleCommon sampleQueue sampleConfig utcZone
       duplicateReleases)
    sampleWorld.

(** Collaborators whose regular-expression engine rejects the pattern
    [(], and a package that has it as its ignore pattern. *)
Definition pickyUtils : Utils := {|
  getVersionFromTag := sampleVersionFromTag;
  RegExp := λ pattern _,
    if bool_decide (pattern = "(") then None
    else Some (λ s, sampleContains (toLowerCase pattern) (toLowerCase s));
  cleanRepoUrl := λ url _, url
|}.

Definition pickyPackage : Package.t :=
  Package.mk "com.picky" "https://example.org/picky" (Some "(") None.

Definition pickyWorld : World := {|
  packages := [pickyPackage];
  remotes := sampleTags;
  extras := [];
  releases := [];
  jobs := [];
  clock := 1000000
|}.

Definition pickyBuild :=
  @exec sampleCommon sampleQueue _ _ sampleHandler
    (@buildPackage pickyUtils sampleCommon sampleQueue sampleConfig utcZone
       "com.picky") pickyWorld.

(** Tags with the prefix [v] and the ignore pattern [-master]. *)
Definition m1 := mkRemoteTag 0 "v1.0.2-master" "b1".
Definition m2 := mkRemoteTag 1 "v1.0.2" "b2".
Definition m3 := mkRemoteTag 2 "1.0.1" "b3".
Definition m4 := mkRemoteTag 3 "upm/1.0.0" "b4".
Definition m5 := mkRemoteTag 4 "v1.0.0-upm" "b5".
Definition m6 := mkRemoteTag 5 "vnext" "b6".

Definition masterTags : list RemoteTag := [m1; m2; m3; m4; m5; m6].

(** A tag object moved to another commit. *)
Definition moveTag (x : RemoteTag) : RemoteTag :=
  mkRemoteTag (ref x) (tag x) "moved".

(** The scheduler run a second time, on the queue that the first run
    left. *)
Definition sampleReschedule :=
  @exec sampleCommon sampleQueue _ _ sampleHandler
    (@addReleaseJobs sampleCommon sampleQueue sampleConfig utcZone
       duplicateReleases)
    sampleSchedule.2.



(** The reconciliation run without any valid tag. *)
Definition sampleUpdateNoTags :=
  @exec sampleCommon sampleQueue _ _ sampleHandler
    (@updateReleaseRecords sampleUtils sampleCommon sampleQueue
       "com.sample" []) sampleWorld.

(** ** Runs of programs *)

Section RunLemmas.
Context `{Common, Queue}.

Lemma exec_runs {A S} (handler : ∀ c, S → Resp c * S) (p : Prog A) (s : S) :
  runs p (exec handler p s).1.1 (exec handler p s).1.2.
Proof.
  revert s. induction p as [a|e|c k IH]; intros s; simpl; [done..|].
  destruct (handler c s) as [r s'] eqn:Hh.
  specialize (IH r s'). destruct (exec handler (k r) s') as [[tr o] s''].
  simpl in *. eauto.
Qed.

Lemma runs_bind {A B} (p : Prog A) (f : A → Prog B) tr o :
  runs (bind p f) tr o ↔
    (∃ e, runs p tr (Thrown e) ∧ o = Thrown e)
    ∨ (∃ a tr1 tr2, tr = tr1 ++ tr2
                    ∧ runs p tr1 (Returned a) ∧ runs (f a) tr2 o).
Proof.
  revert tr. induction p as [a|e|c k IH]; intros tr; simpl.
  - split.
    + intros Hr. right. exists a, [], tr. done.
    + intros [(e & [_ [=]] & _)|(a' & tr1 & tr2 & -> & [-> [= <-]] & Hr)]; done.
  - split.
    + intros [-> ->]. left. eauto.
    + intros [(e' & [-> [= <-]] & ->)|(a' & tr1 & tr2 & _ & [_ [=]] & _)]; done.
  - split.
    + intros (r & tr' & -> & Hr). apply IH in Hr.
      destruct Hr as [(e & Hr & ->)|(a & tr1 & tr2 & -> & Hr1 & Hr2)].
      * left. exists e. split; [|done]. eauto.
      * right. exists a, (Ev c r :: tr1), tr2. split; [done|]. split; eauto.
    + intros [(e & (r & tr' & -> & Hr) & ->)
             |(a & tr1 & tr2 & -> & (r & tr' & -> & Hr1) & Hr2)].
      * exists r, tr'. split; [done|]. apply IH. left. eauto.
      * exists r, (tr' ++ tr2). split; [done|]. apply IH. right.
        exists a, tr', tr2. done.
Qed.

Lemma runs_call (c : Call) tr (o : Outcome (Resp c)) :
  runs (call c) tr o ↔ ∃ r, tr = [Ev c r] ∧ o = Returned r.
Proof.
  simpl. split.
  - intros (r & tr' & -> & -> & ->). eauto.
  - intros (r & -> & ->). eauto.
Qed.
End RunLemmas.

(** ** The tag filter *)

Lemma filter_none {A} (P : A → Prop) `{!∀ x, Decision (P x)} (l : list A) :
  Forall (λ x, ¬ P x) l → filter P l = [].
Proof.
  induction 1 as [|x l Hx _ IH]; [done|]. by rewrite filter_cons_False.
Qed.

Section TagFilterLemmas.
Context `{Utils}.

Lemma removeDuplications_app tags seen valid :
  removeDuplications tags seen valid
  = valid ++ firstOfEachVersion tags seen.
Proof.
  revert seen valid. induction tags as [|x tags IH]; intros seen valid; simpl.
  - by rewrite app_nil_r.
  - fold (versionOf x). destruct (decide (versionOf x ∈ seen)); [done|].
    rewrite IH. by rewrite <- app_assoc.
Qed.

Lemma firstOfEachVersion_skip_upm tags seen :
  (∀ x, x ∈ tags → isUpm x → versionOf x ∈ seen) →
  firstOfEachVersion tags seen
  = firstOfEachVersion (filter (λ x, ¬ isUpm x) tags) seen.
Proof.
  revert seen. induction tags as [|x tags IH]; intros seen Hseen; [done|].
  rewrite filter_cons. destruct (decide (¬ isUpm x)) as [Hx|Hx]; simpl.
  - destruct (decide (versionOf x ∈ seen)).
    + apply IH. intros y Hy. apply Hseen. by right.
    + f_equal. apply IH. intros y Hy Hu.
      apply elem_of_union_r, Hseen; [by right|done].
  - apply dec_stable in Hx.
    rewrite decide_True by (apply Hseen; [left|done]).
    apply IH. intros y Hy. apply Hseen. by right.
Qed.

Lemma filterRemoteTags_filtered remoteTags ignore prefix :
  filterRemoteTags remoteTags ignore prefix
  = obind (filteredTags remoteTags ignore prefix)
      (λ tags, Returned (constructionOrder tags)).
Proof.
  unfold filterRemoteTags.
  destruct (filteredTags remoteTags ignore prefix) as [tags|e]; [|done].
  simpl. f_equal. rewrite removeDuplications_app. unfold constructionOrder.
  f_equal. apply firstOfEachVersion_skip_upm.
  intros x Hx Hu. apply elem_of_list_to_set, list_elem_of_fmap.
  exists x. split; [done|]. by apply list_elem_of_filter.
Qed.

Lemma firstOfEachVersion_elem_of tags seen x :
  x ∈ firstOfEachVersion tags seen ↔
    (versionOf x ∉ seen)
    ∧ ∃ l1 l2, tags = l1 ++ x :: l2
               ∧ ∀ y, y ∈ l1 → versionOf y ≠ versionOf x.
Proof.
  revert seen. induction tags as [|z tags IH]; intros seen; simpl.
  - split; [by intros ?%elem_of_nil|].
    intros (_ & l1 & l2 & Hl & _). by destruct l1.
  - destruct (decide (versionOf z ∈ seen)) as [Hz|Hz].
    + rewrite IH. split.
      * intros (Hx & l1 & l2 & -> & Hl1). split; [done|].
        exists (z :: l1), l2. split; [done|].
        intros y [->|Hy]%elem_of_cons; [congruence|by apply Hl1].
      * intros (Hx & l1 & l2 & Hl & Hl1). split; [done|].
        destruct l1 as [|z' l1]; simplify_eq/=; [done|].
        exists l1, l2. split; [done|]. intros y Hy. apply Hl1. by right.
    + rewrite elem_of_cons, IH. split.
      * intros [->|(Hx & l1 & l2 & -> & Hl1)].
        { split; [done|]. exists [], tags. split; [done|].
          by intros y ?%elem_of_nil. }
        split; [set_solver|]. exists (z :: l1), l2. split; [done|].
        intros y [->|Hy]%elem_of_cons; [set_solver|by apply Hl1].
      * intros (Hx & l1 & l2 & Hl & Hl1).
        destruct l1 as [|z' l1]; simplify_eq/=; [by left|].
        right. split.
        { assert (versionOf z' ≠ versionOf x) by (apply Hl1; left).
          set_solver. }
        exists l1, l2. split; [done|]. intros y Hy. apply Hl1. by right.
Qed.

Lemma firstOfEachVersion_NoDup tags seen :
  NoDup (versionOf <$> firstOfEachVersion tags seen).
Proof.
  revert seen. induction tags as [|z tags IH]; intros seen; simpl.
  - constructor.
  - destruct (decide (versionOf z ∈ seen)); [apply IH|].
    rewrite fmap_cons. constructor; [|apply IH].
    intros (y & Hv & Hy)%list_elem_of_fmap.
    apply firstOfEachVersion_elem_of in Hy as [Hy _]. set_solver.
Qed.

Lemma firstOfEachVersion_not_upm tags :
  Forall (λ x, ¬ isUpm x)
    (firstOfEachVersion (filter (λ x, ¬ isUpm x) tags)
       (list_to_set (versionOf <$> filter isUpm tags))).
Proof.
  apply Forall_forall. intros x Hx.
  apply firstOfEachVersion_elem_of in Hx as (_ & l1 & l2 & Hl & _).
  assert (x ∈ filter (λ x, ¬ isUpm x) tags) as Hin.
  { rewrite Hl. apply elem_of_app. right. left. }
  by apply list_elem_of_filter in Hin as [? _].
Qed.
End TagFilterLemmas.

Section TagFilterTheorems.
Context `{Utils, Common, Queue, Config, TimeZone}.

(** C1 (amended).  [filterRemoteTags] returns the valid tags in
    construction order, the UPM-tagged survivors followed by the first
    non-UPM tag of every version not yet seen, and applies no reverse.
    The reverse is applied by the caller: in every run of [buildPackage]
    the list whose difference is stored as the invalid tags, and which
    is handed to the reconciliation, is the reverse of the list that
    [filterRemoteTags] returned. *)
Theorem filterRemoteTags_construction_order :
  (∀ remoteTags ignore prefix,
     filterRemoteTags remoteTags ignore prefix
     = obind (filteredTags remoteTags ignore prefix)
         (λ tags, Returned (constructionOrder tags)))
  ∧ (∀ name tr o,
       runs (buildPackage name) tr o →
       ∃ pkg remoteTags tr',
         tr = Ev (LoadPackage name) pkg
              :: Ev (GitListRemoteTags
                       (cleanRepoUrl (Package.repoUrl pkg) "git"))
                    remoteTags
              :: tr'
         ∧ match filterRemoteTags remoteTags (Package.gitTagIgnore pkg)
                   (Package.gitTagPrefix pkg) with
           | Thrown e => tr' = [] ∧ o = Thrown e
           | Returned returned =>
               let validTags := reverse returned in
               ∃ tr'',
                 tr' = Ev (SetInvalidTags name
                             (difference remoteTags validTags)) tt
                       :: tr''
                 ∧ if decide (validTags = []) then
                     tr'' = [] ∧ o = Returned tt
                   else
                     runs (releases ← updateReleaseRecords
                                        (Package.name pkg) validTags;
                           addReleaseJobs releases) tr'' o
           end).
Proof.
  split; [apply filterRemoteTags_filtered|].
  intros name tr o (pkg & tr0 & -> & remoteTags & tr' & -> & Hrun).
  exists pkg, remoteTags, tr'. split; [done|]. simpl in Hrun. revert Hrun.
  destruct (filterRemoteTags remoteTags _ _) as [returned|e]; simpl;
    [|done].
  intros ([] & tr'' & -> & Hrun). exists tr''. split; [done|]. revert Hrun.
  destruct (reverse returned) as [|x validTags]; simpl; done.
Qed.

(** C2 (amended).  For the tags 1.0.2, patch, 1.0.0, 0.8.0-preview and
    releases/0.8.1-preview, without prefix and ignore pattern and with a
    parser that rejects patch and gives the other four tags four
    different versions, [filterRemoteTags] returns 1.0.2, 1.0.0,
    0.8.0-preview, releases/0.8.1-preview in that order.  That is the
    list before the caller's reverse; after it the order is the
    opposite one.  The invalid tags are patch alone. *)
Theorem filterRemoteTags_simple (r10 r9 r8 r6 r5 : nat)
    (v10 v8 v6 v5 : Version) :
  getVersionFromTag "patch" = None →
  getVersionFromTag "1.0.2" = Some v10 →
  getVersionFromTag "1.0.0" = Some v8 →
  getVersionFromTag "0.8.0-preview" = Some v6 →
  getVersionFromTag "releases/0.8.1-preview" = Some v5 →
  NoDup [v10; v8; v6; v5] →
  let x10 := mkRemoteTag r10 "1.0.2" "c10" in
  let x9 := mkRemoteTag r9 "patch" "c9" in
  let x8 := mkRemoteTag r8 "1.0.0" "c8" in
  let x6 := mkRemoteTag r6 "0.8.0-preview" "c6" in
  let x5 := mkRemoteTag r5 "releases/0.8.1-preview" "c5" in
  let remoteTags := [x10; x9; x8; x6; x5] in
  filterRemoteTags remoteTags None None = Returned [x10; x8; x6; x5]
  ∧ reverse [x10; x8; x6; x5] = [x5; x6; x8; x10]
  ∧ difference remoteTags (reverse [x10; x8; x6; x5]) = [x9].
Proof.
  intros H9 H10 H8 H6 H5 Hnd x10 x9 x8 x6 x5 remoteTags.
  split; [|split; [done|]].
  - rewrite filterRemoteTags_filtered. unfold filteredTags, remoteTags. simpl.
    assert (filter (λ x : RemoteTag, getVersionFromTag (tag x) ≠ None)
              [x10; x9; x8; x6; x5] = [x10; x8; x6; x5]) as ->.
    { rewrite !filter_cons, filter_nil. simpl.
      rewrite H10, H9, H8, H6, H5. by repeat case_decide. }
    unfold constructionOrder.
    assert (filter isUpm [x10; x8; x6; x5] = []) as ->.
    { rewrite !filter_cons, filter_nil. unfold isUpm. simpl.
      by repeat case_decide. }
    assert (filter (λ x, ¬ isUpm x) [x10; x8; x6; x5] = [x10; x8; x6; x5])
      as ->.
    { rewrite !filter_cons, filter_nil. unfold isUpm. simpl.
      repeat case_decide; naive_solver. }
    assert (v10 ≠ v8 ∧ v10 ≠ v6 ∧ v10 ≠ v5 ∧ v8 ≠ v6 ∧ v8 ≠ v5 ∧ v6 ≠ v5)
      as (? & ? & ? & ? & ? & ?).
    { rewrite !NoDup_cons, !elem_of_cons in Hnd. naive_solver. }
    simpl. unfold versionOf. simpl. rewrite H10, H8, H6, H5.
    repeat (rewrite decide_False; [|set_solver]). done.
  - subst x10 x9 x8 x6 x5 remoteTags. unfold difference.
    cbn [reverse rev_append list_difference].
    repeat match goal with
    | |- context [decide_rel elem_of ?x ?l] =>
        let Hin := fresh "Hin" in
        destruct (decide_rel elem_of x l) as [Hin|Hin];
        [try (exfalso; rewrite !elem_of_cons, elem_of_nil in Hin;
              naive_solver)
        |try (exfalso; apply Hin; rewrite !elem_of_cons; naive_solver)]
    end.
    done.
Qed.

(** C6.  Among the surviving tags that are not UPM-tagged, no two tags
    of the valid list share a version, and such a tag is in the valid
    list exactly when no UPM-tagged survivor has its version and it
    stands somewhere in the filtered list with no tag of that version
    before it.  With a parser that gives 1.0.2 and v1.0.2 one version,
    filtering 1.0.2 then v1.0.2 returns 1.0.2 alone, and filtering
    v1.0.2 then 1.0.2 returns v1.0.2 alone. *)
Theorem filterRemoteTags_first_of_each_version :
  (∀ remoteTags ignore prefix tags validTags,
     filteredTags remoteTags ignore prefix = Returned tags →
     filterRemoteTags remoteTags ignore prefix = Returned validTags →
     NoDup (versionOf <$> filter (λ x, ¬ isUpm x) validTags)
     ∧ ∀ x, x ∈ tags → ¬ isUpm x →
         (x ∈ validTags ↔
            (versionOf x ∉ (versionOf <$> filter isUpm tags))
            ∧ ∃ l1 l2, tags = l1 ++ x :: l2
                       ∧ ∀ y, y ∈ l1 → versionOf y ≠ versionOf x))
  ∧ (∀ (r10 r9 : nat) (v : Version),
       getVersionFromTag "1.0.2" = Some v →
       getVersionFromTag "v1.0.2" = Some v →
       filterRemoteTags [mkRemoteTag r10 "1.0.2" "c10";
                         mkRemoteTag r9 "v1.0.2" "c9"] None None
       = Returned [mkRemoteTag r10 "1.0.2" "c10"]
       ∧ filterRemoteTags [mkRemoteTag r10 "v1.0.2" "c10";
                           mkRemoteTag r9 "1.0.2" "c9"] None None
         = Returned [mkRemoteTag r10 "v1.0.2" "c10"]).
Proof.
  split.
  - intros remoteTags ignore prefix tags validTags Htags.
    rewrite filterRemoteTags_filtered, Htags. simpl. intros [= <-].
    unfold constructionOrder.
    pose proof (firstOfEachVersion_not_upm tags) as Hrest.
    rewrite <- firstOfEachVersion_skip_upm in *.
    2, 3: (intros y Hy Hu; apply elem_of_list_to_set, list_elem_of_fmap;
           exists y; split; [done|]; by apply list_elem_of_filter).
    split.
    + rewrite filter_app, list_filter_filter.
      rewrite (filter_none _ tags), app_nil_l
        by (apply Forall_forall; tauto).
      eapply sublist_NoDup; [apply firstOfEachVersion_NoDup|].
      apply fmap_sublist, sublist_filter.
    + intros x Hx Hnu. rewrite elem_of_app, list_elem_of_filter.
      rewrite firstOfEachVersion_elem_of, elem_of_list_to_set. tauto.
  - intros r10 r9 v Hplain Hv.
    rewrite !filterRemoteTags_filtered. unfold filteredTags. simpl.
    rewrite !filter_cons, !filter_nil. simpl. rewrite Hplain, Hv.
    rewrite !decide_True by done. unfold constructionOrder.
    rewrite !filter_cons, !filter_nil. unfold isUpm. simpl.
    unfold versionOf. simpl. rewrite Hplain, Hv. split.
    + rewrite decide_False by set_solver.
      by rewrite decide_True by set_solver.
    + rewrite decide_False by set_solver.
      by rewrite decide_True by set_solver.
Qed.

(** C7.  The UPM-tagged survivors of the filters are all in the valid
    list, as often and in the order in which they survive: when two of
    them have the same version, both are there, and the valid list has
    no other UPM-tagged entries. *)
Theorem filterRemoteTags_keeps_all_upm remoteTags ignore prefix tags
    validTags :
  filteredTags remoteTags ignore prefix = Returned tags →
  filterRemoteTags remoteTags ignore prefix = Returned validTags →
  filter isUpm validTags = filter isUpm tags
  ∧ ∀ x y, x ∈ tags → y ∈ tags → isUpm x → isUpm y →
      versionOf x = versionOf y → x ∈ validTags ∧ y ∈ validTags.
Proof.
  intros Htags. rewrite filterRemoteTags_filtered, Htags. simpl.
  intros [= <-]. unfold constructionOrder.
  pose proof (firstOfEachVersion_not_upm tags) as Hrest. split.
  - rewrite filter_app, list_filter_filter.
    rewrite (filter_none _ (firstOfEachVersion _ _)).
    2: exact Hrest.
    rewrite app_nil_r. apply list_filter_iff. naive_solver.
  - intros x y Hx Hy Hux Huy _.
    split; apply elem_of_app; left; by apply list_elem_of_filter.
Qed.
End TagFilterTheorems.

(** ** The reconciliation and the scheduler *)

Section JobLemmas.
Context `{Utils, Common, Queue, Config, TimeZone}.

Lemma findTag_None remoteTags rel :
  findTag remoteTags rel = None ↔
    ¬ Exists (matchesRelease rel) remoteTags.
Proof.
  unfold findTag, matchesRelease. rewrite Exists_exists. split.
  - intros Hnone (x & Hx & Htag & Hcommit).
    apply list_elem_of_In in Hx.
    pose proof (find_none _ _ Hnone x Hx) as Hf. simpl in Hf.
    rewrite !bool_decide_eq_true_2 in Hf; done.
  - intros Hno. destruct (List.find _ _) as [x|] eqn:Hfind; [|done].
    apply find_some in Hfind as [Hx Hf]. destruct Hno. exists x.
    apply list_elem_of_In in Hx.
    apply andb_prop in Hf as [?%bool_decide_eq_true ?%bool_decide_eq_true].
    done.
Qed.

Lemma runs_removeFailedReleases packageName remoteTags releases tr o :
  runs (removeFailedReleases packageName remoteTags releases) tr o ↔
    o = Returned tt
    ∧ tr = (λ rel, Ev (RemoveRelease packageName (Release.version rel)) tt)
           <$> filter (isStale remoteTags) releases.
Proof.
  revert tr. induction releases as [|rel rest IH]; intros tr; simpl.
  - naive_solver.
  - rewrite filter_cons. unfold isStale at 1.
    destruct (bool_decide_reflect (Release.state rel = Failed)) as [Hst|Hst].
    + destruct (findTag remoteTags rel) as [x|] eqn:Hfind.
      * rewrite decide_False; [apply IH|].
        intros [_ Hno]. apply findTag_None in Hno. congruence.
      * rewrite decide_True by (by split; [|apply findTag_None]).
        simpl. split.
        -- intros ([] & tr' & -> & Hr). apply IH in Hr as [-> ->]. done.
        -- intros [-> ->]. eexists tt, _. split; [done|]. by apply IH.
    + rewrite decide_False by (by intros [? _]). apply IH.
Qed.

Lemma runs_convertTags packageName remoteTags releases tr o :
  runs (convertTags packageName remoteTags releases) tr o ↔
    ∃ calls rels,
      tr = concat calls ∧ o = Returned (releases ++ rels)
      ∧ Forall3 (materializes packageName) remoteTags calls rels.
Proof.
  revert releases tr o.
  induction remoteTags as [|x rest IH]; intros releases tr o; simpl.
  - split.
    + intros [-> ->]. exists [], []. rewrite app_nil_r.
      split_and!; [done..|constructor].
    + intros (calls & rels & -> & -> & Hall). inversion Hall; subst.
      by rewrite app_nil_r.
  - fold (versionOf x). split.
    + intros ([rel|] & tr' & -> & Hr); simpl in Hr.
      * apply IH in Hr as (calls & rels & -> & -> & Hall).
        exists ([Ev (FetchOne packageName (versionOf x)) (Some rel)]
                :: calls), (rel :: rels).
        rewrite <- app_assoc. split_and!; [done..|].
        constructor; [by left|done].
      * destruct Hr as (rel & tr'' & -> & Hr).
        apply IH in Hr as (calls & rels & -> & -> & Hall).
        eexists ([_; _] :: calls), (rel :: rels).
        rewrite <- app_assoc. split_and!; [done..|].
        constructor; [by right|done].
    + intros (calls & rels & -> & -> & Hall).
      inversion Hall as [|? call rel ? calls' rels' Hone Hrest]; subst.
      destruct Hone as [->| ->]; simpl.
      * exists (Some rel), (concat calls'). split; [done|]. simpl.
        apply IH. exists calls', rels'. by rewrite <- app_assoc.
      * eexists None, (Ev (Save _) rel :: concat calls').
        split; [done|]. simpl. exists rel, (concat calls').
        split; [done|]. apply IH. exists calls', rels'.
        by rewrite <- app_assoc.
Qed.

Lemma runs_updateReleaseRecords packageName remoteTags tr o :
  runs (updateReleaseRecords packageName remoteTags) tr o ↔
    ∃ releases calls rels,
      tr = Ev (FetchAll packageName) releases
           :: ((λ rel, Ev (RemoveRelease packageName (Release.version rel))
                         tt)
               <$> filter (isStale remoteTags) releases)
           ++ concat calls
      ∧ o = Returned rels
      ∧ Forall3 (materializes packageName) remoteTags calls rels.
Proof.
  unfold updateReleaseRecords. simpl. split.
  - intros (releases & tr' & -> & Hr).
    change (Prog_mbind _ _ ?f ?p) with (bind p f) in Hr.
    apply runs_bind in Hr as [(e & Hr & _)|([] & tr1 & tr2 & -> & Hr1 & Hr2)].
    { by apply runs_removeFailedReleases in Hr as [? _]. }
    apply runs_removeFailedReleases in Hr1 as [_ ->].
    apply runs_convertTags in Hr2 as (calls & rels & -> & -> & Hall).
    by exists releases, calls, rels.
  - intros (releases & calls & rels & -> & -> & Hall).
    eexists releases, _. split; [done|].
    change (Prog_mbind _ _ ?f ?p) with (bind p f).
    apply runs_bind. right. eexists tt, _, _. split; [done|]. split.
    + by apply runs_removeFailedReleases.
    + apply runs_convertTags. by exists calls, rels.
Qed.

Lemma includes_spec reason :
  includes reason ↔
    ∃ item, reason = Some item ∧ item ∈ RetryableReleaseReason.
Proof.
  destruct reason as [item|]; simpl.
  - rewrite bool_decide_spec. naive_solver.
  - naive_solver.
Qed.

Lemma skipRelease_spec job rel :
  skipRelease job rel ↔ shouldSkip job rel.
Proof.
  unfold skipRelease, shouldSkip.
  rewrite !orb_True, andb_True, negb_True, !bool_decide_spec.
  rewrite includes_spec. tauto.
Qed.

Lemma runs_addReleaseJobsFrom releases i tr o :
  runs (addReleaseJobsFrom releases i) tr o ↔
    o = Returned tt ∧ scheduled i releases tr.
Proof.
  split.
  - revert i tr. induction releases as [|rel rest IH]; intros i tr; simpl.
    + intros [-> ->]. split; [done|constructor].
    + intros (job & tr' & -> & Hr).
      destruct (skipRelease job rel) eqn:Hskip.
      * apply IH in Hr as [-> Hs]. split; [done|].
        apply scheduled_skip; [|done]. apply skipRelease_spec. by rewrite Hskip.
      * simpl in Hr. destruct Hr as (now & tr1 & -> & added & tr2 & -> & Hr).
        apply IH in Hr as [-> Hs]. split; [done|].
        replace (i + 1) with (S i) in Hs by lia.
        pose proof (scheduled_enqueue i rel rest job now added tr2) as Hsch.
        unfold staggerDelay, jobDelay, jobIdOfRelease in *.
        apply Hsch; [|done].
        rewrite <- skipRelease_spec, Hskip. by intros [].
  - intros [-> Hs]. induction Hs as [i|i rel rest job tr Hskip Hs IH
                                   |i rel rest job now added tr Hskip Hs IH];
      simpl.
    + done.
    + exists job, tr. split; [done|].
      apply skipRelease_spec, Is_true_true in Hskip. by rewrite Hskip.
    + eexists job, _. split; [done|].
      rewrite <- skipRelease_spec in Hskip.
      apply negb_prop_intro, Is_true_true, negb_true_iff in Hskip.
      rewrite Hskip. simpl. eexists now, _. split; [done|].
      unfold staggerDelay, jobDelay, jobIdOfRelease.
      eexists added, _. split; [done|].
      by replace (i + 1) with (S i) by lia.
Qed.

Lemma runs_addReleaseJobs releases tr o :
  runs (addReleaseJobs releases) tr o ↔
    o = Returned tt ∧ scheduled 0 releases tr.
Proof. unfold addReleaseJobs. apply runs_addReleaseJobsFrom. Qed.
End JobLemmas.

Lemma NoDup_filter_eq_length {A} `{EqDecision A} (x : A) (l : list A) :
  NoDup l → length (filter (λ y, y = x) l) ≤ 1.
Proof.
  induction 1 as [|y l Hy Hnd IH]; [simpl; lia|].
  rewrite filter_cons. destruct (decide (y = x)) as [->|]; [|done].
  rewrite (filter_none _ l); [simpl; lia|].
  apply Forall_forall. by intros z Hz ->.
Qed.

Lemma list_difference_nil_r {A} `{EqDecision A} (l : list A) :
  list_difference l [] = l.
Proof.
  induction l as [|x l IH]; [done|]. simpl.
  destruct (decide_rel elem_of x []) as [Hin|_]; [|by rewrite IH].
  by apply elem_of_nil in Hin.
Qed.


Section JobTheorems.
Context `{Utils, Common, Queue, Config, TimeZone}.


Lemma materializes_calls packageName remoteTags calls rels :
  Forall3 (materializes packageName) remoteTags calls rels →
  Forall (λ e, isStoreLookupOrSave e) (concat calls).
Proof.
  induction 1 as [|x call rel ? ? ? Hone _ IH]; simpl; [constructor|].
  apply Forall_app. split; [|done].
  destruct Hone as [->| ->]; repeat constructor.
Qed.


Lemma scheduled_job_ids i releases tr added :
  scheduled i releases tr →
  lookupReflectsAdds added tr →
  NoDup (omap addedJobId tr)
  ∧ ∀ jobId, jobId ∈ omap addedJobId tr →
      (jobId ∉ added)
      ∧ ∃ rel, rel ∈ releases ∧ jobId = jobIdOfRelease rel.
Proof.
  intros Hs. revert added.
  induction Hs as [i|i rel rest job tr Hskip Hs IH
                  |i rel rest job now new tr Hskip Hs IH];
    intros added; simpl.
  - intros _. split; [constructor|]. by intros ? ?%elem_of_nil.
  - intros [_ Hrest]%andb_True. destruct (IH _ Hrest) as [Hnd Hids].
    split; [done|]. intros jobId Hin.
    destruct (Hids _ Hin) as (? & rel' & ? & ?). split; [done|].
    exists rel'. split; [by right|done].
  - intros [Hfound Hrest]%andb_True.
    destruct (IH _ Hrest) as [Hnd Hids].
    assert (jobIdOfRelease rel ∉ added) as Hfresh.
    { intros Hin. rewrite decide_True in Hfound by done.
      apply bool_decide_spec in Hfound. apply Hskip. by left. }
    split.
    + constructor; [|done]. intros Hin.
      destruct (Hids _ Hin) as [Hnot _]. set_solver.
    + intros jobId [->|Hin]%elem_of_cons.
      * split; [done|]. exists rel. split; [by left|done].
      * destruct (Hids _ Hin) as (Hnot & rel' & ? & ?).
        split; [set_solver|]. exists rel'. split; [by right|done].
Qed.

(** C3.  In every run of the reconciliation the persisted releases are
    fetched, then the removal routine is called with the package name
    and the version of exactly the failed releases that no valid tag
    matches in tag and commit, in the order of the fetched list, and
    only then come the lookups and saves of the materialization, which
    are all the calls that remain. *)
Theorem updateReleaseRecords_removes_stale packageName validTags tr o :
  runs (updateReleaseRecords packageName validTags) tr o →
  ∃ releases rest,
    tr = Ev (FetchAll packageName) releases
         :: ((λ rel, Ev (RemoveRelease packageName (Release.version rel))
                       tt)
             <$> filter (isStale validTags) releases)
         ++ rest
    ∧ Forall (λ e, isStoreLookupOrSave e) rest
    ∧ runs (convertTags packageName validTags []) rest o.
Proof.
  intros (releases & calls & rels & -> & -> & Hall)%runs_updateReleaseRecords.
  exists releases, (concat calls). split; [done|]. split.
  - by eapply materializes_calls.
  - apply runs_convertTags. by exists calls, rels.
Qed.

(** C8.  In every run of the reconciliation the calls after the fetch
    and the removals fall into one group per valid tag, in order, and
    the result has one release per valid tag: where the lookup of
    (package name, parsed version) finds a release, the group is that
    lookup alone and the result is the found record itself; where it
    finds none, the group is the lookup followed by the save of
    {packageName, version, commit, tag}, and the result is what the save
    answers. *)
Theorem updateReleaseRecords_reuses_existing packageName validTags tr o :
  runs (updateReleaseRecords packageName validTags) tr o →
  ∃ before calls rels,
    tr = before ++ concat calls
    ∧ o = Returned rels
    ∧ Forall (λ e, ¬ isStoreLookupOrSave e) before
    ∧ Forall3 (materializes packageName) validTags calls rels.
Proof.
  intros (releases & calls & rels & -> & -> & Hall)%runs_updateReleaseRecords.
  eexists (_ :: _), calls, rels. split; [done|]. split; [done|].
  split; [|done]. constructor; [by intros []|].
  apply Forall_fmap, Forall_forall. intros rel _. by intros [].
Qed.

(** C4.  The runs of the scheduler are exactly the scheduled call
    sequences from the counter 0: for every release the job with its id
    is looked up; when a job is found, or the release has succeeded, or
    it has failed for a reason outside the retryable set, nothing else
    is called for it and the counter stays; otherwise the clock is read,
    the job is added and the counter goes up by one. *)
Theorem addReleaseJobs_scheduled releases tr o :
  runs (addReleaseJobs releases) tr o ↔
    o = Returned tt ∧ scheduled 0 releases tr.
Proof. apply runs_addReleaseJobsFrom. Qed.


(** C9.  When the filter returns no valid tag for the tags that the
    listing gave, the run of the job is the package load, the tag listing
    and the overwrite of the invalid tags with all remote tags, and it
    returns normally: no release is read or written and no job is looked
    up or added. *)
Theorem buildPackage_no_valid_tags name tr o pkg remoteTags :
  runs (buildPackage name) tr o →
  tr !! 0 ≫= loadedPackage = Some pkg →
  tr !! 1 ≫= listedTags = Some remoteTags →
  filterRemoteTags remoteTags (Package.gitTagIgnore pkg)
    (Package.gitTagPrefix pkg) = Returned [] →
  tr = [Ev (LoadPackage name) pkg;
        Ev (GitListRemoteTags (cleanRepoUrl (Package.repoUrl pkg) "git"))
           remoteTags;
        Ev (SetInvalidTags name remoteTags) tt]
  ∧ o = Returned tt.
Proof.
  intros (pkg' & tr0 & -> & remoteTags' & rest & -> & Hrun).
  simpl. intros [= <-] [= <-] Hvalid.
  simpl in Hrun. rewrite Hvalid in Hrun. simpl in Hrun.
  destruct Hrun as ([] & tr' & -> & -> & ->).
  unfold difference. change (reverse []) with (@nil RemoteTag).
  by rewrite list_difference_nil_r.
Qed.

(** C10.  In a run of the scheduler in which the queue's lookup finds
    every job added earlier in the run, no job id is added twice, and
    every added id is the id of one of the releases: for every package
    name and version at most one job is added, however often the pair
    occurs among the releases. *)
Theorem addReleaseJobs_one_job_per_version releases tr o :
  runs (addReleaseJobs releases) tr o →
  lookupReflectsAdds ∅ tr →
  NoDup (omap addedJobId tr)
  ∧ (∀ jobId, jobId ∈ omap addedJobId tr →
       ∃ rel, rel ∈ releases
              ∧ jobId = jobIdOf (Release.packageName rel)
                          (Release.version rel))
  ∧ ∀ packageName version,
      length (filter (λ jobId, jobId = jobIdOf packageName version)
                (omap addedJobId tr)) ≤ 1.
Proof.
  intros [_ Hs]%runs_addReleaseJobs Hq.
  destruct (scheduled_job_ids _ _ _ _ Hs Hq) as [Hnd Hids].
  split; [done|]. split.
  - intros jobId Hin. by destruct (Hids _ Hin) as [_ ?].
  - intros packageName version. by apply NoDup_filter_eq_length.
Qed.
End JobTheorems.

(** ** More on the tag filter *)

Lemma filter_all {A} (P : A → Prop) `{!∀ x, Decision (P x)} (l : list A) :
  Forall P l → filter P l = l.
Proof.
  induction 1 as [|x l Hx _ IH]; [done|].
  rewrite filter_cons_True by done. by rewrite IH.
Qed.

Lemma list_difference_sublist {A} `{EqDecision A} (l k : list A) :
  list_difference l k `sublist_of` l.
Proof.
  induction l as [|x l IH]; simpl; [constructor|].
  destruct (decide_rel elem_of x k); by constructor.
Qed.

Section TagFilterMore.
Context `{Utils}.

Lemma filteredTags_Thrown remoteTags ignore prefix e :
  filteredTags remoteTags ignore prefix = Thrown e ↔
    ∃ pattern, truthy ignore = Some pattern
               ∧ RegExp pattern "i" = None ∧ e = SyntaxError pattern.
Proof.
  unfold filteredTags, newRegExp.
  destruct (truthy ignore) as [pattern|]; [|naive_solver].
  destruct (RegExp pattern "i") as [test|] eqn:Hre; simpl; naive_solver.
Qed.

Lemma filteredTags_elem_of remoteTags ignore prefix tags x :
  filteredTags remoteTags ignore prefix = Returned tags →
  x ∈ tags ↔
    x ∈ remoteTags ∧ passesPrefix prefix x
    ∧ versionOf x ≠ None ∧ passesIgnore ignore x.
Proof.
  unfold filteredTags, newRegExp, passesPrefix, passesIgnore, versionOf.
  destruct (truthy prefix) as [p|];
    (destruct (truthy ignore) as [pattern|];
     [destruct (RegExp pattern "i") as [test|] eqn:Hre|]); simpl;
    intros [= <-]; rewrite ?list_elem_of_filter.
  - rewrite negb_True, Is_true_false. split.
    + intros (Hi & Hv & Hp & Hx). split_and!; [done| |done|].
      * by intros ? [= <-].
      * intros ?? [= <-] ?. by simplify_eq.
    + intros (Hx & Hp & Hv & Hi). split_and!; eauto.
  - split.
    + intros (Hv & Hp & Hx). split_and!; [done| |done|done].
      by intros ? [= <-].
    + intros (Hx & Hp & Hv & _). split_and!; eauto.
  - rewrite negb_True, Is_true_false. split.
    + intros (Hi & Hv & Hx). split_and!; [done|done|done|].
      intros ?? [= <-] ?. by simplify_eq.
    + intros (Hx & _ & Hv & Hi). split_and!; eauto.
  - naive_solver.
Qed.

Lemma filteredTags_sublist remoteTags ignore prefix tags :
  filteredTags remoteTags ignore prefix = Returned tags →
  tags `sublist_of` remoteTags.
Proof.
  unfold filteredTags, newRegExp.
  destruct (truthy prefix) as [p|];
    (destruct (truthy ignore) as [pattern|];
     [destruct (RegExp pattern "i") as [test|]|]); simpl;
    intros [= <-];
    repeat (etrans; [apply sublist_filter; apply _|]); done.
Qed.

Lemma filteredTags_fixed remoteTags ignore prefix tags l :
  filteredTags remoteTags ignore prefix = Returned tags →
  (∀ x, x ∈ l → x ∈ tags) →
  filteredTags l ignore prefix = Returned l.
Proof.
  unfold filteredTags, newRegExp.
  destruct (truthy prefix) as [p|];
    (destruct (truthy ignore) as [pattern|];
     [destruct (RegExp pattern "i") as [test|]|]); simpl;
    intros [= <-] Hl; f_equal;
    repeat (rewrite (filter_all _ l);
            [|apply Forall_forall; intros x Hx; apply Hl in Hx;
              rewrite !list_elem_of_filter in Hx; tauto]);
    done.
Qed.

Lemma firstOfEachVersion_sublist tags seen :
  firstOfEachVersion tags seen `sublist_of` tags.
Proof.
  revert seen. induction tags as [|x tags IH]; intros seen; simpl;
    [constructor|].
  destruct (decide (versionOf x ∈ seen)); by constructor.
Qed.

Lemma firstOfEachVersion_idem tags seen :
  firstOfEachVersion (firstOfEachVersion tags seen) seen
  = firstOfEachVersion tags seen.
Proof.
  revert seen. induction tags as [|x tags IH]; intros seen; simpl; [done|].
  destruct (decide (versionOf x ∈ seen)) as [Hin|Hin]; [done|]. simpl.
  rewrite decide_False by done. by rewrite IH.
Qed.

Lemma firstOfEachVersion_covers tags seen x :
  x ∈ tags → versionOf x ∉ seen →
  ∃ y, y ∈ firstOfEachVersion tags seen ∧ versionOf y = versionOf x.
Proof.
  revert seen. induction tags as [|z tags IH]; intros seen Hx Hseen;
    [by apply elem_of_nil in Hx|]. simpl.
  destruct (decide (versionOf z ∈ seen)) as [Hz|Hz].
  - apply elem_of_cons in Hx as [->|Hx]; [done|]. by apply IH.
  - destruct (decide (versionOf z = versionOf x)) as [Heq|Hne].
    + exists z. split; [by left|done].
    + apply elem_of_cons in Hx as [->|Hx]; [done|].
      destruct (IH ({[versionOf z]} ∪ seen) Hx) as (y & Hy & Hv).
      { rewrite elem_of_union, elem_of_singleton. naive_solver. }
      exists y. split; [by right|done].
Qed.

Lemma constructionOrder_upm tags :
  filter isUpm (constructionOrder tags) = filter isUpm tags.
Proof.
  unfold constructionOrder. rewrite filter_app, list_filter_filter.
  rewrite (filter_none _ (firstOfEachVersion _ _))
    by apply firstOfEachVersion_not_upm.
  rewrite app_nil_r. apply list_filter_iff. naive_solver.
Qed.

Lemma constructionOrder_rest tags :
  filter (λ x, ¬ isUpm x) (constructionOrder tags)
  = firstOfEachVersion (filter (λ x, ¬ isUpm x) tags)
      (list_to_set (versionOf <$> filter isUpm tags)).
Proof.
  unfold constructionOrder. rewrite filter_app, list_filter_filter.
  rewrite (filter_none _ tags) by (apply Forall_forall; tauto).
  rewrite filter_all by apply firstOfEachVersion_not_upm. done.
Qed.

Lemma constructionOrder_subseteq tags x :
  x ∈ constructionOrder tags → x ∈ tags.
Proof.
  unfold constructionOrder. rewrite elem_of_app, list_elem_of_filter.
  intros [[_ ?]|Hx]; [done|].
  eapply elem_of_sublist in Hx; [|apply firstOfEachVersion_sublist].
  by apply list_elem_of_filter in Hx as [_ ?].
Qed.
End TagFilterMore.

Section TagFilterExtras.
Context `{Utils}.

(** X1.  The tag filter throws exactly when an ignore pattern is set, is
    not the empty string, and does not compile; the error is the
    pattern's syntax error, whatever the tags are. *)
Theorem filterRemoteTags_throws remoteTags ignore prefix e :
  filterRemoteTags remoteTags ignore prefix = Thrown e ↔
    ∃ pattern, truthy ignore = Some pattern
               ∧ RegExp pattern "i" = None ∧ e = SyntaxError pattern.
Proof.
  rewrite <- (filteredTags_Thrown remoteTags ignore prefix).
  unfold filterRemoteTags.
  destruct (filteredTags remoteTags ignore prefix); simpl; naive_solver.
Qed.

(** X2.  Every valid tag is one of the remote tags, has a parsed version,
    starts with the prefix when one is set, and is not matched by the
    ignore pattern when one is set. *)
Theorem filterRemoteTags_sound remoteTags ignore prefix validTags x :
  filterRemoteTags remoteTags ignore prefix = Returned validTags →
  x ∈ validTags →
  x ∈ remoteTags
  ∧ getVersionFromTag (tag x) ≠ None
  ∧ passesPrefix prefix x
  ∧ passesIgnore ignore x.
Proof.
  rewrite filterRemoteTags_filtered.
  destruct (filteredTags remoteTags ignore prefix) as [tags|] eqn:Htags;
    [|done].
  simpl. intros [= <-] Hx%constructionOrder_subseteq.
  apply (filteredTags_elem_of _ _ _ _ _ Htags) in Hx. tauto.
Qed.

(** X3.  Deduplication loses no version: every tag that survives the
    three filters has a valid tag of the same version. *)
Theorem filterRemoteTags_covers_versions remoteTags ignore prefix tags
    validTags x :
  filteredTags remoteTags ignore prefix = Returned tags →
  filterRemoteTags remoteTags ignore prefix = Returned validTags →
  x ∈ tags →
  ∃ y, y ∈ validTags ∧ versionOf y = versionOf x.
Proof.
  intros Htags. rewrite filterRemoteTags_filtered, Htags. simpl.
  intros [= <-] Hx. unfold constructionOrder.
  destruct (decide (versionOf x
                    ∈ (list_to_set (versionOf <$> filter isUpm tags)
                       : gset (option Version)))) as [Hin|Hin].
  - apply elem_of_list_to_set, list_elem_of_fmap in Hin as (y & Hv & Hy).
    exists y. split; [|done]. apply elem_of_app. by left.
  - assert (x ∈ filter (λ x, ¬ isUpm x) tags) as Hrest.
    { apply list_elem_of_filter. split; [|done]. intros Hu. apply Hin.
      apply elem_of_list_to_set, list_elem_of_fmap. exists x.
      split; [done|]. by apply list_elem_of_filter. }
    destruct (firstOfEachVersion_covers _ _ _ Hrest Hin) as (y & Hy & Hv).
    exists y. split; [|done]. apply elem_of_app. by right.
Qed.

(** X4.  The valid list is its UPM-tagged entries followed by the others;
    each of the two groups keeps the order of the remote tags, and the
    list as a whole holds no tag more often than the remote tags do. *)
Theorem filterRemoteTags_order remoteTags ignore prefix validTags :
  filterRemoteTags remoteTags ignore prefix = Returned validTags →
  validTags = filter isUpm validTags ++ filter (λ x, ¬ isUpm x) validTags
  ∧ filter isUpm validTags `sublist_of` remoteTags
  ∧ filter (λ x, ¬ isUpm x) validTags `sublist_of` remoteTags
  ∧ validTags ⊆+ remoteTags.
Proof.
  rewrite filterRemoteTags_filtered.
  destruct (filteredTags remoteTags ignore prefix) as [tags|] eqn:Htags;
    [|done].
  simpl. intros [= <-]. apply filteredTags_sublist in Htags.
  rewrite constructionOrder_upm, constructionOrder_rest.
  assert (firstOfEachVersion (filter (λ x, ¬ isUpm x) tags)
            (list_to_set (versionOf <$> filter isUpm tags))
          `sublist_of` filter (λ x, ¬ isUpm x) tags) as Hrest
    by apply firstOfEachVersion_sublist.
  split_and!.
  - done.
  - etrans; [apply sublist_filter; apply _|done].
  - etrans; [exact Hrest|]. etrans; [apply sublist_filter; apply _|done].
  - unfold constructionOrder.
    trans (filter isUpm tags ++ filter (λ x, ¬ isUpm x) tags).
    + apply submseteq_app; [done|]. by apply sublist_submseteq.
    + rewrite filter_app_complement. by apply sublist_submseteq.
Qed.

(** X5.  Filtering is idempotent: the valid list, filtered again with the
    same ignore pattern and prefix, comes back unchanged. *)
Theorem filterRemoteTags_idempotent remoteTags ignore prefix validTags :
  filterRemoteTags remoteTags ignore prefix = Returned validTags →
  filterRemoteTags validTags ignore prefix = Returned validTags.
Proof.
  rewrite !filterRemoteTags_filtered.
  destruct (filteredTags remoteTags ignore prefix) as [tags|] eqn:Htags;
    [|done].
  simpl. intros [= <-].
  rewrite (filteredTags_fixed _ _ _ _ (constructionOrder tags) Htags)
    by apply constructionOrder_subseteq.
  simpl. f_equal. unfold constructionOrder at 1.
  rewrite constructionOrder_upm, constructionOrder_rest.
  by rewrite firstOfEachVersion_idem.
Qed.

(** X6.  The valid list has at most one tag per version exactly when the
    UPM-tagged survivors have pairwise different versions. *)
Theorem filterRemoteTags_one_tag_per_version remoteTags ignore prefix tags
    validTags :
  filteredTags remoteTags ignore prefix = Returned tags →
  filterRemoteTags remoteTags ignore prefix = Returned validTags →
  NoDup (versionOf <$> validTags)
  ↔ NoDup (versionOf <$> filter isUpm tags).
Proof.
  intros Htags. rewrite filterRemoteTags_filtered, Htags. simpl.
  intros [= <-]. unfold constructionOrder. rewrite fmap_app, NoDup_app.
  split; [tauto|]. intros Hupm. split_and!.
  - done.
  - intros v Hv (y & -> & Hy)%list_elem_of_fmap.
    apply firstOfEachVersion_elem_of in Hy as [Hy _].
    by apply Hy, elem_of_list_to_set.
  - apply firstOfEachVersion_NoDup.
Qed.

(** X7.  The valid tags after the reverse and the invalid tags that the
    job stores split the remote tags: a remote tag is in exactly one of
    the two lists, the invalid tags keep the order of the remote tags, and
    every remote tag without a parsed version is invalid. *)
Theorem buildPackage_invalid_tags remoteTags ignore prefix returned :
  filterRemoteTags remoteTags ignore prefix = Returned returned →
  let validTags := reverse returned in
  let invalidTags := difference remoteTags validTags in
  (∀ x, x ∈ remoteTags ↔ x ∈ validTags ∨ x ∈ invalidTags)
  ∧ (∀ x, x ∈ validTags → x ∉ invalidTags)
  ∧ invalidTags `sublist_of` remoteTags
  ∧ (∀ x, x ∈ remoteTags → getVersionFromTag (tag x) = None →
       x ∈ invalidTags).
Proof.
  intros Hvalid validTags invalidTags. unfold invalidTags, difference.
  assert (∀ x, x ∈ validTags →
               x ∈ remoteTags ∧ getVersionFromTag (tag x) ≠ None) as Hsound.
  { intros x. unfold validTags. rewrite elem_of_reverse. revert Hvalid.
    rewrite filterRemoteTags_filtered.
    destruct (filteredTags remoteTags ignore prefix) as [tags|] eqn:Htags;
      [|done].
    simpl. intros [= <-] Hx%constructionOrder_subseteq.
    apply (filteredTags_elem_of _ _ _ _ _ Htags) in Hx. tauto. }
  clearbody validTags. split_and!.
  - intros x. rewrite list_elem_of_difference. split.
    + intros Hx. destruct (decide (x ∈ validTags)); tauto.
    + intros [Hx|[Hx _]]; [by apply Hsound|done].
  - intros x Hx. rewrite list_elem_of_difference. tauto.
  - apply list_difference_sublist.
  - intros x Hx Hnone. apply list_elem_of_difference. split; [done|].
    intros [_ Hv]%Hsound. done.
Qed.
End TagFilterExtras.

(** ** More on the job, the reconciliation and the scheduler *)

Lemma append_assoc (s1 s2 s3 : string) :
  (s1 +:+ s2) +:+ s3 = s1 +:+ (s2 +:+ s3).
Proof.
  induction s1 as [|c s1 IH]; [done|].
  change (String c ((s1 +:+ s2) +:+ s3) = String c (s1 +:+ (s2 +:+ s3))).
  by rewrite IH.
Qed.

Lemma append_colon_inj (p1 p2 v1 v2 : string) :
  noColon p1 → noColon p2 →
  p1 +:+ (":" +:+ v1) = p2 +:+ (":" +:+ v2) → p1 = p2 ∧ v1 = v2.
Proof.
  revert p2. induction p1 as [|c p1 IH]; intros [|d p2];
    cbn [noColon]; cbv [String.append]; fold String.append.
  - intros _ _ Heq. injection Heq as ->. done.
  - intros _ [Hd _]%andb_True Heq. injection Heq as <- _.
    by destruct Hd.
  - intros [Hc _]%andb_True _ Heq. injection Heq as -> _.
    by destruct Hc.
  - intros [_ H1]%andb_True [_ H2]%andb_True Heq.
    injection Heq as -> Heq. destruct (IH _ H1 H2 Heq) as [-> ->]. done.
Qed.

Section JobExtras.
Context `{Utils, Common, Queue, Config, TimeZone}.

Lemma scheduled_queue_calls i releases tr :
  scheduled i releases tr → Forall (λ e, isQueueCall e) tr.
Proof. induction 1; repeat constructor; done. Qed.

Lemma updateReleaseRecords_store_calls packageName remoteTags tr o :
  runs (updateReleaseRecords packageName remoteTags) tr o →
  Forall (λ e, isStoreCall e) tr ∧ ∃ rels, o = Returned rels.
Proof.
  intros (releases & calls & rels & -> & -> & Hall)%runs_updateReleaseRecords.
  split; [|by exists rels]. constructor; [done|]. apply Forall_app. split.
  - apply Forall_fmap, Forall_forall. by intros rel _.
  - apply materializes_calls in Hall. eapply Forall_impl; [exact Hall|].
    by intros [[] ?].
Qed.

Lemma lookupReflectsAdds_app added tr1 tr2 :
  lookupReflectsAdds added (tr1 ++ tr2)
  = lookupReflectsAdds added tr1
    && lookupReflectsAdds (list_to_set (omap addedJobId tr1) ∪ added) tr2.
Proof.
  revert added. induction tr1 as [|e tr1 IH]; intros added.
  - simpl. f_equal. apply leibniz_equiv. set_solver.
  - change ((e :: tr1) ++ tr2) with (e :: (tr1 ++ tr2)).
    cbn [lookupReflectsAdds]. destruct e as [c r].
    destruct c; cbn [jobLookup addedJobId omap list_omap]; rewrite ?IH;
      try done.
    + by rewrite andb_assoc.
    + f_equal. f_equal. apply leibniz_equiv.
      rewrite list_to_set_cons. set_solver.
Qed.

Lemma runs_buildPackage name tr o :
  runs (buildPackage name) tr o →
  ∃ pkg remoteTags rest,
    tr = Ev (LoadPackage name) pkg
         :: Ev (GitListRemoteTags (cleanRepoUrl (Package.repoUrl pkg) "git"))
               remoteTags
         :: rest
    ∧ match filterRemoteTags remoteTags (Package.gitTagIgnore pkg)
              (Package.gitTagPrefix pkg) with
      | Thrown e => rest = [] ∧ o = Thrown e
      | Returned returned =>
          ∃ store queue,
            rest = Ev (SetInvalidTags name
                         (difference remoteTags (reverse returned))) tt
                   :: store ++ queue
            ∧ o = Returned tt
            ∧ Forall (λ e, isStoreCall e) store
            ∧ Forall (λ e, isQueueCall e) queue
      end.
Proof.
  intros (pkg & tr0 & -> & remoteTags & rest & -> & Hrun).
  exists pkg, remoteTags, rest. split; [done|]. simpl in Hrun. revert Hrun.
  destruct (filterRemoteTags remoteTags _ _) as [returned|e]; simpl;
    [|done].
  intros ([] & rest' & -> & Hrun). revert Hrun.
  destruct (reverse returned) as [|x validTags] eqn:Hrev.
  - simpl. intros [-> ->]. exists [], []. split_and!; done.
  - intros Hrun.
    change (runs (bind (updateReleaseRecords (Package.name pkg)
                          (x :: validTags))
                    (λ releases, addReleaseJobs releases)) rest' o) in Hrun.
    apply runs_bind in Hrun
      as [(e & Hr & _)|(rels & store & queue & -> & Hr1 & Hr2)].
    { by apply updateReleaseRecords_store_calls in Hr as [_ [? ?]]. }
    apply updateReleaseRecords_store_calls in Hr1 as [Hstore _].
    apply runs_addReleaseJobs in Hr2 as [-> Hqueue].
    apply scheduled_queue_calls in Hqueue. exists store, queue. done.
Qed.

(** X8.  When the job throws, it has only loaded the package and listed
    the remote tags: nothing was stored and no job was added.  The error
    is the syntax error of the package's ignore pattern. *)
Theorem buildPackage_throws name tr e :
  runs (buildPackage name) tr (Thrown e) →
  ∃ pkg remoteTags pattern,
    tr = [Ev (LoadPackage name) pkg;
          Ev (GitListRemoteTags (cleanRepoUrl (Package.repoUrl pkg) "git"))
             remoteTags]
    ∧ truthy (Package.gitTagIgnore pkg) = Some pattern
    ∧ RegExp pattern "i" = None
    ∧ e = SyntaxError pattern.
Proof.
  intros (pkg & remoteTags & rest & -> & Hrest)%runs_buildPackage.
  revert Hrest. rewrite filterRemoteTags_filtered.
  destruct (filteredTags remoteTags _ _) as [tags|e'] eqn:Htags; simpl.
  - by intros (? & ? & _ & ? & _).
  - intros [-> [= ->]].
    apply filteredTags_Thrown in Htags as (pattern & ? & ? & ->).
    by exists pkg, remoteTags, pattern.
Qed.

(** X9.  A run of the job that returns goes through its stages in order:
    the package is loaded, the tags are listed, the invalid tags are
    stored, then come all calls to the release store and the removal
    routine, and only after them the calls to the queue. *)
Theorem buildPackage_phases name tr :
  runs (buildPackage name) tr (Returned tt) →
  ∃ pkg remoteTags invalidTags store queue,
    tr = Ev (LoadPackage name) pkg
         :: Ev (GitListRemoteTags (cleanRepoUrl (Package.repoUrl pkg) "git"))
               remoteTags
         :: Ev (SetInvalidTags name invalidTags) tt
         :: store ++ queue
    ∧ Forall (λ e, isStoreCall e) store
    ∧ Forall (λ e, isQueueCall e) queue.
Proof.
  intros (pkg & remoteTags & rest & -> & Hrest)%runs_buildPackage.
  destruct (filterRemoteTags remoteTags _ _) as [returned|e].
  - destruct Hrest as (store & queue & -> & _ & Hstore & Hqueue).
    by eexists pkg, remoteTags, _, store, queue.
  - by destruct Hrest as [_ [=]].
Qed.

(** X10.  Called without valid tags, the reconciliation removes every
    failed release of the package and creates none; it returns no
    release. *)
Theorem updateReleaseRecords_no_tags packageName tr o :
  runs (updateReleaseRecords packageName []) tr o ↔
    ∃ releases,
      tr = Ev (FetchAll packageName) releases
           :: ((λ rel, Ev (RemoveRelease packageName (Release.version rel))
                         tt)
               <$> filter (λ rel, Release.state rel = Failed) releases)
      ∧ o = Returned [].
Proof.
  assert (∀ releases : list Release.t,
            filter (isStale []) releases
            = filter (λ rel, Release.state rel = Failed) releases) as Hstale.
  { intros releases. apply list_filter_iff. intros rel. unfold isStale.
    rewrite Exists_nil. tauto. }
  rewrite runs_updateReleaseRecords. split.
  - intros (releases & calls & rels & -> & -> & Hall).
    inversion Hall; subst. exists releases.
    by rewrite Hstale, app_nil_r.
  - intros (releases & -> & ->). exists releases, [], [].
    rewrite Hstale, app_nil_r. split_and!; [done..|constructor].
Qed.

(** X11.  Scheduling is idempotent across runs: when the scheduler runs
    twice and the queue's lookup finds every job added before, in the
    first run or the second, no job id is added twice over the two runs. *)
Theorem addReleaseJobs_twice releases1 releases2 tr1 tr2 o1 o2 :
  runs (addReleaseJobs releases1) tr1 o1 →
  runs (addReleaseJobs releases2) tr2 o2 →
  lookupReflectsAdds ∅ (tr1 ++ tr2) →
  NoDup (omap addedJobId (tr1 ++ tr2)).
Proof.
  intros [_ Hs1]%runs_addReleaseJobs [_ Hs2]%runs_addReleaseJobs.
  rewrite lookupReflectsAdds_app. intros [Hq1 Hq2]%andb_True.
  destruct (scheduled_job_ids _ _ _ _ Hs1 Hq1) as [Hnd1 _].
  destruct (scheduled_job_ids _ _ _ _ Hs2 Hq2) as [Hnd2 Hids2].
  rewrite omap_app. apply NoDup_app. split_and!; [done| |done].
  intros jobId Hin1 Hin2. destruct (Hids2 _ Hin2) as [Hnot _].
  apply Hnot. apply elem_of_union_l. by apply elem_of_list_to_set.
Qed.

(** X12.  For package names without a colon the job id determines the
    package name and the version.  Without that the id does not: the
    package [a:b] at the version [c] and the package [a] at the version
    [b:c] have one job id. *)
Theorem jobIdOf_inj :
  (∀ packageName1 version1 packageName2 version2,
     noColon packageName1 → noColon packageName2 →
     jobIdOf packageName1 version1 = jobIdOf packageName2 version2 →
     packageName1 = packageName2 ∧ version1 = version2)
  ∧ jobIdOf "a:b" "c" = jobIdOf "a" "b:c".
Proof.
  split.
  - intros p1 v1 p2 v2 Hp1 Hp2. unfold jobIdOf. rewrite !append_assoc.
    intros Heq%(inj (String.app _)). injection Heq as Heq.
    by apply append_colon_inj.
  - unfold jobIdOf. by rewrite !append_assoc.
Qed.
End JobExtras.

Section MoreExtras.
Context `{Utils, Common, Queue, Config, TimeZone}.

Lemma filter_fmap_tag (f : RemoteTag → RemoteTag) (P : RemoteTag → Prop)
    `{!∀ x, Decision (P x)} (l : list RemoteTag) :
  (∀ x, P (f x) ↔ P x) →
  filter P (f <$> l) = f <$> filter P l.
Proof.
  intros HP. induction l as [|x l IH]; [done|].
  rewrite fmap_cons, !filter_cons.
  destruct (decide (P (f x))) as [Hfx|Hfx], (decide (P x)) as [Hx|Hx];
    rewrite ?fmap_cons, IH; try done.
  - destruct Hx. by apply HP.
  - destruct Hfx. by apply HP.
Qed.

Lemma firstOfEachVersion_fmap (f : RemoteTag → RemoteTag) tags seen :
  (∀ x, tag (f x) = tag x) →
  firstOfEachVersion (f <$> tags) seen = f <$> firstOfEachVersion tags seen.
Proof.
  intros Hf.
  assert (∀ x, versionOf (f x) = versionOf x) as Hv
    by (intros x; unfold versionOf; by rewrite Hf).
  revert seen. induction tags as [|x tags IH]; intros seen; [done|].
  rewrite fmap_cons. simpl. rewrite !Hv.
  destruct (decide (versionOf x ∈ seen)); [apply IH|].
  rewrite fmap_cons. f_equal. apply IH.
Qed.

(** X13.  The filter looks at the tag names only: when the tag objects
    are replaced by objects with the same names, at other commits or
    references, the result is the same selection, replaced alike. *)
Theorem filterRemoteTags_names_only (f : RemoteTag → RemoteTag) remoteTags
    ignore prefix :
  (∀ x, tag (f x) = tag x) →
  filterRemoteTags (f <$> remoteTags) ignore prefix
  = obind (filterRemoteTags remoteTags ignore prefix)
      (λ validTags, Returned (f <$> validTags)).
Proof.
  intros Hf. rewrite !filterRemoteTags_filtered.
  assert (filteredTags (f <$> remoteTags) ignore prefix
          = obind (filteredTags remoteTags ignore prefix)
              (λ tags, Returned (f <$> tags))) as ->.
  { unfold filteredTags, newRegExp.
    destruct (truthy prefix) as [p|];
      (destruct (truthy ignore) as [pattern|];
       [destruct (RegExp pattern "i") as [test|]|]); simpl; f_equal;
      repeat (rewrite filter_fmap_tag by (intros x; by rewrite Hf)); done. }
  destruct (filteredTags remoteTags ignore prefix) as [tags|e]; [|done].
  simpl. f_equal. unfold constructionOrder.
  assert (∀ x, isUpm (f x) ↔ isUpm x) as Hupm
    by (intros x; unfold isUpm; by rewrite Hf).
  rewrite !filter_fmap_tag by (intros x; by rewrite Hupm).
  assert (versionOf <$> (f <$> filter isUpm tags)
          = versionOf <$> filter isUpm tags) as ->.
  { rewrite <- list_fmap_compose. apply list_fmap_ext.
    intros _ x _. simpl. unfold versionOf. by rewrite Hf. }
  by rewrite fmap_app, firstOfEachVersion_fmap.
Qed.

Lemma scheduled_eligible i releases tr jobId :
  scheduled i releases tr →
  jobId ∈ omap addedJobId tr →
  ∃ rel, rel ∈ releases ∧ jobId = jobIdOfRelease rel
         ∧ ¬ shouldSkip None rel.
Proof.
  induction 1 as [i|i rel rest job tr Hskip Hs IH
                 |i rel rest job now new tr Hskip Hs IH]; simpl.
  - by intros ?%elem_of_nil.
  - intros (rel' & ? & ? & ?)%IH. exists rel'. split; [by right|done].
  - intros [->|(rel' & ? & ? & ?)%IH]%elem_of_cons.
    + exists rel. split; [by left|]. split; [done|].
      intros [[? [=]]|Hst]; apply Hskip; by right.
    + exists rel'. split; [by right|done].
Qed.

(** X14.  The scheduler adds jobs for eligible releases only: every job
    id it adds is the id of a release that has not succeeded and, if it
    has failed, has a reason of the retryable set. *)
Theorem addReleaseJobs_only_eligible releases tr o jobId :
  runs (addReleaseJobs releases) tr o →
  jobId ∈ omap addedJobId tr →
  ∃ rel, rel ∈ releases
         ∧ jobId = jobIdOf (Release.packageName rel) (Release.version rel)
         ∧ Release.state rel ≠ Succeeded
         ∧ (Release.state rel = Failed →
            ∃ item, ReleaseReason_get (Release.reason rel) = Some item
                    ∧ item ∈ RetryableReleaseReason).
Proof.
  intros [_ Hs]%runs_addReleaseJobs Hin.
  destruct (scheduled_eligible _ _ _ _ Hs Hin) as (rel & Hrel & -> & Hskip).
  exists rel. split_and!; [done|done| |].
  - intros Hst. apply Hskip. right. by left.
  - intros Hst.
    destruct (ReleaseReason_get (Release.reason rel)) as [item|] eqn:Hget.
    + exists item. split; [done|].
      destruct (decide (item ∈ RetryableReleaseReason)) as [|Hnot]; [done|].
      destruct Hskip. right. right. split; [done|].
      intros (item' & Hitem & ?). by simplify_eq.
    + destruct Hskip. right. right. split; [done|].
      intros (item' & Hitem & _). by simplify_eq.
Qed.

Lemma materializes_lookups packageName remoteTags calls rels :
  Forall3 (materializes packageName) remoteTags calls rels →
  omap lookedUpVersion (concat calls) = versionOf <$> remoteTags.
Proof.
  induction 1 as [|x call rel ? ? ? Hone _ IH]; [done|].
  rewrite concat_cons, omap_app, fmap_cons, IH.
  by destruct Hone as [->| ->].
Qed.

Lemma queue_calls_no_lookup (tr : list Event) :
  Forall (λ e, isQueueCall e) tr → omap lookedUpVersion tr = [].
Proof.
  induction 1 as [|[c r] tr Hq _ IH]; [done|]. by destruct c.
Qed.

(** X15.  In a run of the job that returns, the release store is asked
    for one release per valid tag, for the parsed versions of the valid
    tags in the reverse of the order in which the filter returned them. *)
Theorem buildPackage_lookup_order name tr pkg remoteTags returned :
  runs (buildPackage name) tr (Returned tt) →
  tr !! 0 ≫= loadedPackage = Some pkg →
  tr !! 1 ≫= listedTags = Some remoteTags →
  filterRemoteTags remoteTags (Package.gitTagIgnore pkg)
    (Package.gitTagPrefix pkg) = Returned returned →
  omap lookedUpVersion tr = versionOf <$> reverse returned.
Proof.
  intros (pkg' & tr0 & -> & remoteTags' & rest & -> & Hrun).
  simpl. intros [= <-] [= <-] Hvalid.
  simpl in Hrun. rewrite Hvalid in Hrun. simpl in Hrun.
  destruct Hrun as ([] & rest' & -> & Hrun). simpl. revert Hrun.
  destruct (reverse returned) as [|x validTags] eqn:Hrev.
  - by intros [-> _].
  - intros Hrun.
    change (runs (bind (updateReleaseRecords (Package.name pkg')
                          (x :: validTags))
                    (λ releases, addReleaseJobs releases)) rest'
              (Returned tt)) in Hrun.
    apply runs_bind in Hrun
      as [(e & _ & [=])|(rels & store & queue & -> & Hr1 & Hr2)].
    apply runs_updateReleaseRecords in Hr1
      as (releases & calls & rels' & -> & _ & Hall).
    apply runs_addReleaseJobs in Hr2 as [_ Hqueue].
    apply scheduled_queue_calls, queue_calls_no_lookup in Hqueue.
    rewrite omap_app, Hqueue, app_nil_r. simpl.
    change (list_omap _ _ ?f ?l) with (omap f l).
    rewrite omap_app, (materializes_lookups _ _ _ _ Hall).
    assert (∀ l : list Release.t,
              omap lookedUpVersion
                ((λ rel, Ev (RemoveRelease (Package.name pkg')
                               (Release.version rel)) tt) <$> l) = [])
      as -> by (by induction l).
    done.
Qed.
End MoreExtras.

(** ** The theorems on worked inputs *)

Section Worked.
#[local] Existing Instance sampleUtils.
#[local] Existing Instance sampleCommon.
#[local] Existing Instance sampleQueue.
#[local] Existing Instance sampleConfig.
#[local] Existing Instance utcZone.

(** C1 as stated fails: for the tags 1.0.2 and 1.0.0 the construction
    order is 1.0.2, 1.0.0, and that, not its reverse, is what
    [filterRemoteTags] returns. *)
Lemma filterRemoteTags_returns_unreversed :
  filterRemoteTags [c10; c8] None None = Returned [c10; c8]
  ∧ constructionOrder [c10; c8] = [c10; c8]
  ∧ filterRemoteTags [c10; c8] None None
    ≠ Returned (reverse (constructionOrder [c10; c8])).
Proof.
  assert (filterRemoteTags [c10; c8] None None = Returned [c10; c8]) as Hf
    by (vm_compute; reflexivity).
  assert (constructionOrder [c10; c8] = [c10; c8]) as Hc
    by (vm_compute; reflexivity).
  rewrite Hf, Hc. split; [done|]. split; [done|]. discriminate.
Qed.

Lemma filterRemoteTags_construction_order_witness :
  runs (buildPackage "com.sample") sampleBuild.1.1 sampleBuild.1.2
  ∧ ∃ pkg remoteTags tr',
      sampleBuild.1.1
      = Ev (LoadPackage "com.sample") pkg
        :: Ev (GitListRemoteTags
                 (cleanRepoUrl (Package.repoUrl pkg) "git")) remoteTags
        :: tr'
      ∧ match filterRemoteTags remoteTags (Package.gitTagIgnore pkg)
                (Package.gitTagPrefix pkg) with
        | Thrown e => tr' = [] ∧ sampleBuild.1.2 = Thrown e
        | Returned returned =>
            let validTags := reverse returned in
            ∃ tr'',
              tr' = Ev (SetInvalidTags "com.sample"
                          (difference remoteTags validTags)) tt
                    :: tr''
              ∧ if decide (validTags = []) then
                  tr'' = [] ∧ sampleBuild.1.2 = Returned tt
                else
                  runs (releases ← updateReleaseRecords
                                     (Package.name pkg) validTags;
                        addReleaseJobs releases) tr'' sampleBuild.1.2
        end.
Proof.
  unfold sampleBuild. split; [apply exec_runs|].
  apply (proj2 filterRemoteTags_construction_order), exec_runs.
Defined.

(** C2 as stated fails: the list after the caller's reverse is not
    1.0.2, 1.0.0, 0.8.0-preview, releases/0.8.1-preview but the
    opposite. *)
Lemma filterRemoteTags_simple_after_reverse :
  ∃ returned,
    filterRemoteTags sampleTags None None = Returned returned
    ∧ reverse returned = [c5; c6; c8; c10]
    ∧ reverse returned ≠ [c10; c8; c6; c5].
Proof.
  exists [c10; c8; c6; c5]. split; [vm_compute; reflexivity|].
  split; [reflexivity|]. discriminate.
Qed.

Lemma filterRemoteTags_simple_witness :
  (getVersionFromTag "patch" = None
   ∧ getVersionFromTag "1.0.2" = Some "1.0.2"
   ∧ getVersionFromTag "1.0.0" = Some "1.0.0"
   ∧ getVersionFromTag "0.8.0-preview" = Some "0.8.0-preview"
   ∧ getVersionFromTag "releases/0.8.1-preview" = Some "0.8.1-preview"
   ∧ NoDup ["1.0.2"; "1.0.0"; "0.8.0-preview"; "0.8.1-preview"])
  ∧ filterRemoteTags sampleTags None None = Returned [c10; c8; c6; c5]
  ∧ reverse [c10; c8; c6; c5] = [c5; c6; c8; c10]
  ∧ difference sampleTags (reverse [c10; c8; c6; c5]) = [c9].
Proof.
  assert (NoDup ["1.0.2"; "1.0.0"; "0.8.0-preview"; "0.8.1-preview"])
    as Hnd by (refine (bool_decide_unpack _ _); vm_compute; exact I).
  split; [repeat split; assumption || reflexivity|].
  apply (filterRemoteTags_simple 0 1 2 3 4
           "1.0.2" "1.0.0" "0.8.0-preview" "0.8.1-preview");
    assumption || reflexivity.
Defined.

Lemma filterRemoteTags_first_of_each_version_witness :
  (filteredTags upmTags None None = Returned upmTags
   ∧ filterRemoteTags upmTags None None = Returned [u1; u3; u4]
   ∧ NoDup (versionOf <$> filter (λ x, ¬ isUpm x) [u1; u3; u4])
   ∧ ∀ x, x ∈ upmTags → ¬ isUpm x →
       (x ∈ [u1; u3; u4] ↔
          (versionOf x ∉ (versionOf <$> filter isUpm upmTags))
          ∧ ∃ l1 l2, upmTags = l1 ++ x :: l2
                     ∧ ∀ y, y ∈ l1 → versionOf y ≠ versionOf x))
  ∧ (getVersionFromTag "1.0.2" = Some "1.0.2"
     ∧ getVersionFromTag "v1.0.2" = Some "1.0.2"
     ∧ filterRemoteTags [mkRemoteTag 0 "1.0.2" "c10";
                         mkRemoteTag 1 "v1.0.2" "c9"] None None
       = Returned [mkRemoteTag 0 "1.0.2" "c10"]
     ∧ filterRemoteTags [mkRemoteTag 0 "v1.0.2" "c10";
                         mkRemoteTag 1 "1.0.2" "c9"] None None
       = Returned [mkRemoteTag 0 "v1.0.2" "c10"]).
Proof.
  assert (filteredTags upmTags None None = Returned upmTags) as Htags
    by (vm_compute; reflexivity).
  assert (filterRemoteTags upmTags None None = Returned [u1; u3; u4])
    as Hvalid by (vm_compute; reflexivity).
  split.
  - split; [exact Htags|]. split; [exact Hvalid|].
    exact (proj1 filterRemoteTags_first_of_each_version
             upmTags None None upmTags [u1; u3; u4] Htags Hvalid).
  - split; [reflexivity|]. split; [reflexivity|].
    exact (proj2 filterRemoteTags_first_of_each_version
             0 1 "1.0.2" eq_refl eq_refl).
Defined.

Lemma filterRemoteTags_keeps_all_upm_witness :
  filteredTags upmTags None None = Returned upmTags
  ∧ filterRemoteTags upmTags None None = Returned [u1; u3; u4]
  ∧ filter isUpm [u1; u3; u4] = filter isUpm upmTags
  ∧ ∀ x y, x ∈ upmTags → y ∈ upmTags → isUpm x → isUpm y →
      versionOf x = versionOf y → x ∈ [u1; u3; u4] ∧ y ∈ [u1; u3; u4].
Proof.
  assert (filteredTags upmTags None None = Returned upmTags) as Htags
    by (vm_compute; reflexivity).
  assert (filterRemoteTags upmTags None None = Returned [u1; u3; u4])
    as Hvalid by (vm_compute; reflexivity).
  split; [exact Htags|]. split; [exact Hvalid|].
  exact (filterRemoteTags_keeps_all_upm
           upmTags None None upmTags [u1; u3; u4] Htags Hvalid).
Defined.

Lemma updateReleaseRecords_removes_stale_witness :
  runs (updateReleaseRecords "com.sample" [c5; c6; c8; c10])
    sampleUpdate.1.1 sampleUpdate.1.2
  ∧ ∃ releases rest,
      sampleUpdate.1.1
      = Ev (FetchAll "com.sample") releases
        :: ((λ rel, Ev (RemoveRelease "com.sample" (Release.version rel))
                      tt)
            <$> filter (isStale [c5; c6; c8; c10]) releases)
        ++ rest
      ∧ Forall (λ e, isStoreLookupOrSave e) rest
      ∧ runs (convertTags "com.sample" [c5; c6; c8; c10] []) rest
          sampleUpdate.1.2.
Proof.
  unfold sampleUpdate. split; [apply exec_runs|].
  apply updateReleaseRecords_removes_stale, exec_runs.
Defined.

Lemma updateReleaseRecords_reuses_existing_witness :
  runs (updateReleaseRecords "com.sample" [c5; c6; c8; c10])
    sampleUpdate.1.1 sampleUpdate.1.2
  ∧ ∃ before calls rels,
      sampleUpdate.1.1 = before ++ concat calls
      ∧ sampleUpdate.1.2 = Returned rels
      ∧ Forall (λ e, ¬ isStoreLookupOrSave e) before
      ∧ Forall3 (materializes "com.sample") [c5; c6; c8; c10] calls rels.
Proof.
  unfold sampleUpdate. split; [apply exec_runs|].
  apply updateReleaseRecords_reuses_existing, exec_runs.
Defined.

Lemma addReleaseJobs_scheduled_witness :
  runs (addReleaseJobs duplicateReleases)
    sampleSchedule.1.1 sampleSchedule.1.2
  ∧ sampleSchedule.1.2 = Returned tt
  ∧ scheduled 0 duplicateReleases sampleSchedule.1.1.
Proof.
  unfold sampleSchedule. split; [apply exec_runs|].
  apply (proj1 (addReleaseJobs_scheduled _ _ _)), exec_runs.
Defined.



Lemma buildPackage_no_valid_tags_witness :
  runs (buildPackage "com.empty") emptyBuild.1.1 emptyBuild.1.2
  ∧ emptyBuild.1.1 !! 0 ≫= loadedPackage = Some emptyPackage
  ∧ emptyBuild.1.1 !! 1 ≫= listedTags = Some [c9]
  ∧ filterRemoteTags [c9] None None = Returned []
  ∧ emptyBuild.1.1
    = [Ev (LoadPackage "com.empty") emptyPackage;
       Ev (GitListRemoteTags
             (cleanRepoUrl (Package.repoUrl emptyPackage) "git")) [c9];
       Ev (SetInvalidTags "com.empty" [c9]) tt]
  ∧ emptyBuild.1.2 = Returned tt.
Proof.
  unfold emptyBuild.
  split; [apply exec_runs|]. split; [reflexivity|].
  split; [reflexivity|]. split; [reflexivity|].
  apply (buildPackage_no_valid_tags "com.empty" _ _ emptyPackage [c9]);
    [apply exec_runs|reflexivity..].
Defined.

Lemma addReleaseJobs_one_job_per_version_witness :
  runs (addReleaseJobs duplicateReleases)
    sampleSchedule.1.1 sampleSchedule.1.2
  ∧ lookupReflectsAdds ∅ sampleSchedule.1.1
  ∧ NoDup (omap addedJobId sampleSchedule.1.1)
  ∧ (∀ jobId, jobId ∈ omap addedJobId sampleSchedule.1.1 →
       ∃ rel, rel ∈ duplicateReleases
              ∧ jobId = jobIdOf (Release.packageName rel)
                          (Release.version rel))
  ∧ ∀ packageName version,
      length (filter (λ jobId, jobId = jobIdOf packageName version)
                (omap addedJobId sampleSchedule.1.1)) ≤ 1.
Proof.
  unfold sampleSchedule. split; [apply exec_runs|].
  split; [vm_compute; exact I|].
  eapply addReleaseJobs_one_job_per_version;
    [apply exec_runs|vm_compute; exact I].
Defined.
End Worked.

Section WorkedExtras.
#[local] Existing Instance sampleUtils.
#[local] Existing Instance sampleCommon.
#[local] Existing Instance sampleQueue.
#[local] Existing Instance sampleConfig.
#[local] Existing Instance utcZone.

Lemma masterTags_filtered :
  filteredTags masterTags (Some "-MASTER") (Some "v") = Returned [m2; m5].
Proof. vm_compute. reflexivity. Qed.

Lemma masterTags_valid :
  filterRemoteTags masterTags (Some "-MASTER") (Some "v")
  = Returned [m5; m2].
Proof. vm_compute. reflexivity. Qed.

Lemma upmTags_filtered : filteredTags upmTags None None = Returned upmTags.
Proof. vm_compute. reflexivity. Qed.

Lemma upmTags_valid :
  filterRemoteTags upmTags None None = Returned [u1; u3; u4].
Proof. vm_compute. reflexivity. Qed.

Lemma sampleBuild_returns : sampleBuild.1.2 = Returned tt.
Proof. vm_compute. reflexivity. Qed.

Lemma filterRemoteTags_sound_witness :
  filterRemoteTags masterTags (Some "-MASTER") (Some "v")
  = Returned [m5; m2]
  ∧ m2 ∈ [m5; m2]
  ∧ m2 ∈ masterTags
  ∧ getVersionFromTag (tag m2) ≠ None
  ∧ passesPrefix (Some "v") m2
  ∧ passesIgnore (Some "-MASTER") m2.
Proof.
  assert (m2 ∈ [m5; m2]) as Hin by (right; left).
  split; [exact masterTags_valid|]. split; [exact Hin|].
  exact (filterRemoteTags_sound _ _ _ _ _ masterTags_valid Hin).
Defined.

Lemma filterRemoteTags_covers_versions_witness :
  filteredTags upmTags None None = Returned upmTags
  ∧ filterRemoteTags upmTags None None = Returned [u1; u3; u4]
  ∧ u5 ∈ upmTags
  ∧ ∃ y, y ∈ [u1; u3; u4] ∧ versionOf y = versionOf u5.
Proof.
  assert (u5 ∈ upmTags) as Hin by (do 4 right; left).
  split; [exact upmTags_filtered|]. split; [exact upmTags_valid|].
  split; [exact Hin|].
  exact (filterRemoteTags_covers_versions _ _ _ _ _ _
           upmTags_filtered upmTags_valid Hin).
Defined.

Lemma filterRemoteTags_order_witness :
  filterRemoteTags upmTags None None = Returned [u1; u3; u4]
  ∧ [u1; u3; u4]
    = filter isUpm [u1; u3; u4] ++ filter (λ x, ¬ isUpm x) [u1; u3; u4]
  ∧ filter isUpm [u1; u3; u4] `sublist_of` upmTags
  ∧ filter (λ x, ¬ isUpm x) [u1; u3; u4] `sublist_of` upmTags
  ∧ [u1; u3; u4] ⊆+ upmTags.
Proof.
  split; [exact upmTags_valid|].
  exact (filterRemoteTags_order _ _ _ _ upmTags_valid).
Defined.

Lemma filterRemoteTags_idempotent_witness :
  filterRemoteTags masterTags (Some "-MASTER") (Some "v")
  = Returned [m5; m2]
  ∧ filterRemoteTags [m5; m2] (Some "-MASTER") (Some "v")
    = Returned [m5; m2].
Proof.
  split; [exact masterTags_valid|].
  exact (filterRemoteTags_idempotent _ _ _ _ masterTags_valid).
Defined.

Lemma filterRemoteTags_one_tag_per_version_witness :
  filteredTags masterTags (Some "-MASTER") (Some "v") = Returned [m2; m5]
  ∧ filterRemoteTags masterTags (Some "-MASTER") (Some "v")
    = Returned [m5; m2]
  ∧ (NoDup (versionOf <$> [m5; m2])
     ↔ NoDup (versionOf <$> filter isUpm [m2; m5])).
Proof.
  split; [exact masterTags_filtered|]. split; [exact masterTags_valid|].
  exact (filterRemoteTags_one_tag_per_version _ _ _ _ _
           masterTags_filtered masterTags_valid).
Defined.

Lemma buildPackage_invalid_tags_witness :
  filterRemoteTags masterTags (Some "-MASTER") (Some "v")
  = Returned [m5; m2]
  ∧ (∀ x, x ∈ masterTags ↔
          x ∈ reverse [m5; m2]
          ∨ x ∈ difference masterTags (reverse [m5; m2]))
  ∧ (∀ x, x ∈ reverse [m5; m2] →
          x ∉ difference masterTags (reverse [m5; m2]))
  ∧ difference masterTags (reverse [m5; m2]) `sublist_of` masterTags
  ∧ (∀ x, x ∈ masterTags → getVersionFromTag (tag x) = None →
          x ∈ difference masterTags (reverse [m5; m2])).
Proof.
  split; [exact masterTags_valid|].
  exact (buildPackage_invalid_tags _ _ _ _ masterTags_valid).
Defined.

Lemma buildPackage_throws_witness :
  runs (@buildPackage pickyUtils _ _ _ _ "com.picky") pickyBuild.1.1
    (Thrown (SyntaxError "("))
  ∧ ∃ pkg remoteTags pattern,
      pickyBuild.1.1
      = [Ev (LoadPackage "com.picky") pkg;
         Ev (GitListRemoteTags
               (@cleanRepoUrl pickyUtils (Package.repoUrl pkg) "git"))
            remoteTags]
      ∧ truthy (Package.gitTagIgnore pkg) = Some pattern
      ∧ @RegExp pickyUtils pattern "i" = None
      ∧ SyntaxError "(" = SyntaxError pattern.
Proof.
  assert (runs (@buildPackage pickyUtils _ _ _ _ "com.picky") pickyBuild.1.1
            (Thrown (SyntaxError "("))) as Hrun.
  { unfold pickyBuild.
    change (Thrown (SyntaxError "("))
      with (@exec sampleCommon sampleQueue _ _ sampleHandler
              (@buildPackage pickyUtils _ _ _ _ "com.picky") pickyWorld).1.2.
    apply exec_runs. }
  split; [exact Hrun|].
  exact (@buildPackage_throws pickyUtils _ _ _ _ _ _ _ Hrun).
Defined.

Lemma buildPackage_phases_witness :
  runs (buildPackage "com.sample") sampleBuild.1.1 (Returned tt)
  ∧ ∃ pkg remoteTags invalidTags store queue,
      sampleBuild.1.1
      = Ev (LoadPackage "com.sample") pkg
        :: Ev (GitListRemoteTags
                 (cleanRepoUrl (Package.repoUrl pkg) "git")) remoteTags
        :: Ev (SetInvalidTags "com.sample" invalidTags) tt
        :: store ++ queue
      ∧ Forall (λ e, isStoreCall e) store
      ∧ Forall (λ e, isQueueCall e) queue.
Proof.
  assert (runs (buildPackage "com.sample") sampleBuild.1.1 (Returned tt))
    as Hrun.
  { rewrite <- sampleBuild_returns. unfold sampleBuild. apply exec_runs. }
  split; [exact Hrun|]. exact (buildPackage_phases _ _ Hrun).
Defined.

Lemma addReleaseJobs_twice_witness :
  runs (addReleaseJobs duplicateReleases)
    sampleSchedule.1.1 sampleSchedule.1.2
  ∧ runs (addReleaseJobs duplicateReleases)
      sampleReschedule.1.1 sampleReschedule.1.2
  ∧ lookupReflectsAdds ∅ (sampleSchedule.1.1 ++ sampleReschedule.1.1)
  ∧ NoDup (omap addedJobId (sampleSchedule.1.1 ++ sampleReschedule.1.1)).
Proof.
  assert (runs (addReleaseJobs duplicateReleases)
            sampleSchedule.1.1 sampleSchedule.1.2) as Hrun1
    by (unfold sampleSchedule; apply exec_runs).
  assert (runs (addReleaseJobs duplicateReleases)
            sampleReschedule.1.1 sampleReschedule.1.2) as Hrun2
    by (unfold sampleReschedule; apply exec_runs).
  assert (lookupReflectsAdds ∅
            (sampleSchedule.1.1 ++ sampleReschedule.1.1)) as Hq
    by (vm_compute; exact I).
  split; [exact Hrun1|]. split; [exact Hrun2|]. split; [exact Hq|].
  exact (addReleaseJobs_twice _ _ _ _ _ _ Hrun1 Hrun2 Hq).
Defined.

Lemma jobIdOf_inj_witness :
  noColon "com.sample" ∧ noColon "com.sample"
  ∧ jobIdOf "com.sample" "1.0.2" = jobIdOf "com.sample" "1.0.2"
  ∧ ("com.sample" = "com.sample" ∧ "1.0.2" = "1.0.2").
Proof.
  split; [exact I|]. split; [exact I|]. split; [reflexivity|].
  exact (proj1 jobIdOf_inj "com.sample" "1.0.2" "com.sample" "1.0.2"
           I I eq_refl).
Defined.

Lemma filterRemoteTags_names_only_witness :
  (∀ x, tag (moveTag x) = tag x)
  ∧ filterRemoteTags (moveTag <$> sampleTags) None None
    = obind (filterRemoteTags sampleTags None None)
        (λ validTags, Returned (moveTag <$> validTags)).
Proof.
  assert (∀ x, tag (moveTag x) = tag x) as Hf by (intros x; reflexivity).
  split; [exact Hf|].
  exact (filterRemoteTags_names_only moveTag sampleTags None None Hf).
Defined.

Lemma addReleaseJobs_only_eligible_witness :
  runs (addReleaseJobs duplicateReleases)
    sampleSchedule.1.1 sampleSchedule.1.2
  ∧ "build-rel:com.sample:1.0.0" ∈ omap addedJobId sampleSchedule.1.1
  ∧ ∃ rel, rel ∈ duplicateReleases
      ∧ "build-rel:com.sample:1.0.0"
        = jobIdOf (Release.packageName rel) (Release.version rel)
      ∧ Release.state rel ≠ Succeeded
      ∧ (Release.state rel = Failed →
         ∃ item, ReleaseReason_get (Release.reason rel) = Some item
                 ∧ item ∈ RetryableReleaseReason).
Proof.
  assert (runs (addReleaseJobs duplicateReleases)
            sampleSchedule.1.1 sampleSchedule.1.2) as Hrun
    by (unfold sampleSchedule; apply exec_runs).
  assert ("build-rel:com.sample:1.0.0"
          ∈ omap addedJobId sampleSchedule.1.1) as Hin
    by (right; left).
  split; [exact Hrun|]. split; [exact Hin|].
  exact (addReleaseJobs_only_eligible _ _ _ _ Hrun Hin).
Defined.

Lemma buildPackage_lookup_order_witness :
  runs (buildPackage "com.sample") sampleBuild.1.1 (Returned tt)
  ∧ sampleBuild.1.1 !! 0 ≫= loadedPackage
    = Some (Package.mk "com.sample" "https://example.org/sample" None None)
  ∧ sampleBuild.1.1 !! 1 ≫= listedTags = Some sampleTags
  ∧ filterRemoteTags sampleTags None None = Returned [c10; c8; c6; c5]
  ∧ omap lookedUpVersion sampleBuild.1.1
    = versionOf <$> reverse [c10; c8; c6; c5].
Proof.
  assert (runs (buildPackage "com.sample") sampleBuild.1.1 (Returned tt))
    as Hrun.
  { rewrite <- sampleBuild_returns. unfold sampleBuild. apply exec_runs. }
  assert (filterRemoteTags sampleTags None None
          = Returned [c10; c8; c6; c5]) as Hvalid
    by (vm_compute; reflexivity).
  split; [exact Hrun|]. split; [reflexivity|]. split; [reflexivity|].
  split; [exact Hvalid|].
  exact (buildPackage_lookup_order "com.sample" _
           (Package.mk "com.sample" "https://example.org/sample" None None)
           sampleTags _ Hrun eq_refl eq_refl Hvalid).
Defined.
End WorkedExtras.
